(** * DNA sequencing algorithms: a shallow embedding of DNA_seq_algorithms.ipynb

    Python [str] values are lists of characters, Python [int]s are [Z] where a
    negative value can reach the code and [nat] for loop counters that come out
    of [range]; a [dict] is a [gmap], a [set] a [gset]; an exception is a value
    of [PyExn] carried by the [result] monad. A [while] loop runs on fuel and
    gives [None] when the fuel is used up; where the loop always ends, the
    function is given the fuel that is enough. *)

From stdpp Require Import gmap strings list sorting.
From Stdlib Require Import ZArith Lia Ascii.

Local Open Scope Z_scope.
Local Open Scope list_scope.

(** ** Python values *)

Abbreviation str := (list ascii).

(** A string literal of the notebook. *)
Definition s_ (x : string) : str := String.list_ascii_of_string x.

(** The exception classes the notebook can raise: [raise Exception(msg)] and
    the built-in ones of [dict], [list], [//] and [len]. *)
Inductive PyExn :=
  | Exception (msg : string)
  | KeyError
  | ValueError
  | IndexError
  | ZeroDivisionError
  | TypeError.

Definition exn_class (e : PyExn) : string :=
  match e with
  | Exception _ => "Exception"
  | KeyError => "KeyError"
  | ValueError => "ValueError"
  | IndexError => "IndexError"
  | ZeroDivisionError => "ZeroDivisionError"
  | TypeError => "TypeError"
  end.

Inductive result (A : Type) :=
  | Ok (a : A)
  | Raise (e : PyExn).
Arguments Ok {A} a.
Arguments Raise {A} e.

Definition bind {A B} (m : result A) (f : A → result B) : result B :=
  match m with
  | Ok a => f a
  | Raise e => Raise e
  end.

Notation "x <~ m ;; k" := (bind m (fun x => k))
  (at level 100, m at next level, right associativity, only parsing).

(** A call that runs a [while] loop on fuel: [None] when the fuel is used up
    before the call has come to an end. *)
Definition run_bind {A B} (m : option (result A)) (f : A → option (result B))
    : option (result B) :=
  match m with
  | None => None
  | Some (Raise e) => Some (Raise e)
  | Some (Ok a) => f a
  end.

Notation "x <~~ m ;; k" := (run_bind m (fun x => k))
  (at level 100, m at next level, right associativity, only parsing).

(** What a call hands to [matches]: a list of offsets, or the [None] of a
    function that ends without a [return]. *)
Inductive pyobj :=
  | PyNone
  | PyList (l : list nat).

(** [len(matches)]: [None] has no length. *)
Definition as_list (matches : pyobj) : result (list nat) :=
  match matches with
  | PyList l => Ok l
  | PyNone => Raise TypeError
  end.

(** ** Slicing

    [s[lo:hi]] for bounds that are already inside [0 .. len]: Python clamps
    [hi] to [len(s)] and gives the empty string when [hi <= lo]. *)
Definition slice {A} (s : list A) (lo hi : nat) : list A :=
  take (hi - lo) (drop lo s).

(** A bound of a Python slice: a negative bound counts from the end, and
    every bound is clamped to [0 .. len]. *)
Definition clamp (len : nat) (i : Z) : nat :=
  if i <? 0 then Z.to_nat (Z.of_nat len + i) else Nat.min (Z.to_nat i) len.

(** [s[lo:hi]] for arbitrary integer bounds; [None] is an omitted bound. *)
Definition pyslice {A} (s : list A) (lo hi : option Z) : list A :=
  slice s (from_option (clamp (length s)) 0%nat lo)
          (from_option (clamp (length s)) (length s) hi).

(** The least and the greatest [i] of [lo, lo+1, .., lo+n-1] with [P i]. *)
Definition first_in (P : nat → Prop) `{∀ i, Decision (P i)} (lo n : nat) : option nat :=
  head (filter P (seq lo n)).

Definition last_in (P : nat → Prop) `{∀ i, Decision (P i)} (lo n : nat) : option nat :=
  last (filter P (seq lo n)).

(** ** Utilities *)

(** [complement[base]] for the literal
    [{'A': 'T', 'C': 'G', 'G': 'C', 'T': 'A', 'N': 'N'}]. *)
Definition complement (base : ascii) : result ascii :=
  match base with
  | "A"%char => Ok "T"%char
  | "C"%char => Ok "G"%char
  | "G"%char => Ok "C"%char
  | "T"%char => Ok "A"%char
  | "N"%char => Ok "N"%char
  | _ => Raise KeyError
  end.

(** The loop [for base in s: t = complement[base] + t]. *)
Fixpoint reverseComplement_loop (s t : str) : result str :=
  match s with
  | [] => Ok t
  | base :: s' => c <~ complement base ;; reverseComplement_loop s' (c :: t)
  end.

Definition reverseComplement (s : str) : result str :=
  reverseComplement_loop s [].

(** The alphabet of a Sequence. *)
Definition is_base (c : ascii) : Prop := c ∈ s_ "ACGTN".

(** ** Naive matching *)

(** The inner loop of [naive_exact] over [enumerate(p)]: the value of
    [match] when the loop is left. [t[i+j]] is inside the text for every
    alignment [i] the outer loop visits. *)
Fixpoint naive_exact_chars (t : str) (i : nat) (jp : list (nat * ascii)) : bool :=
  match jp with
  | [] => true
  | (j, char) :: jp' =>
      if bool_decide (t !! (i + j)%nat ≠ Some char) then false
      else naive_exact_chars t i jp'
  end.

Definition enumerate {A} (l : list A) : list (nat * A) := imap pair l.

(** [range(len(t) - len(p) + 1)]: empty when the pattern is longer than the
    text, which the truncated subtraction gives as well. *)
Definition alignments (p t : str) : list nat :=
  seq 0 (length t + 1 - length p).

Definition naive_exact (p t : str) : list nat :=
  foldl (fun occurrences i =>
           if naive_exact_chars t i (enumerate p) then occurrences ++ [i]
           else occurrences)
        [] (alignments p t).

(** The inner loop of [naive_n_mm] over [range(len(p))], started with the
    running count [mm]: the value of [match] when the loop is left. *)
Fixpoint naive_n_mm_chars (p t : str) (n : Z) (i : nat) (js : list nat) (mm : Z) : bool :=
  match js with
  | [] => true
  | j :: js' =>
      if bool_decide (t !! (i + j)%nat ≠ p !! j) then
        let mm := mm + 1 in
        if mm >? n then false else naive_n_mm_chars p t n i js' mm
      else naive_n_mm_chars p t n i js' mm
  end.

Definition naive_n_mm (p t : str) (n : Z) : list nat :=
  foldl (fun occurrences i =>
           if naive_n_mm_chars p t n i (seq 0 (length p)) 0 then occurrences ++ [i]
           else occurrences)
        [] (alignments p t).

(** [naive_exact_rc]: the occurrences of the pattern, then those of its
    reverse complement when it differs. *)
Definition naive_exact_rc (p t : str) : result (list nat) :=
  let occurrences := naive_exact p t in
  p_rc <~ reverseComplement p ;;
  if bool_decide (p ≠ p_rc) then Ok (occurrences ++ naive_exact p_rc t)
  else Ok occurrences.

(** ** Edit distance *)

(** The matrix [D] is a list of rows. Every index the two functions use
    lies inside the matrix, which has [len(x)+1] rows of [len(y)+1] cells;
    a read outside would give [0] here and a write outside would do nothing
    (Python raises [IndexError]). *)
Definition mget (D : list (list Z)) (i j : nat) : Z :=
  default 0 (D !! i ≫= (.!! j)).

Definition mset (D : list (list Z)) (i j : nat) (v : Z) : list (list Z) :=
  alter (<[j := v]>) i D.

(** [D = []; for i in range(len(x)+1): D.append([0]*(len(y)+1))] *)
Definition zero_matrix (x y : str) : list (list Z) :=
  replicate (length x + 1) (replicate (length y + 1) 0).

(** [for i in range(len(x)+1): D[i][0] = i] *)
Definition init_first_column (x : str) (D : list (list Z)) : list (list Z) :=
  foldl (fun D i => mset D i 0 (Z.of_nat i)) D (seq 0 (length x + 1)).

(** The body of the two nested loops, shared by both functions. *)
Definition fill_cell (x y : str) (D : list (list Z)) (i j : nat) : list (list Z) :=
  let distHor := mget D i (j - 1) + 1 in
  let distVer := mget D (i - 1) j + 1 in
  let distDiag :=
    if bool_decide (x !! (i - 1)%nat = y !! (j - 1)%nat) then mget D (i - 1) (j - 1)
    else mget D (i - 1) (j - 1) + 1 in
  mset D i j (Z.min (Z.min distHor distVer) distDiag).

(** [for i in range(1, len(x)+1): for j in range(1, len(y)+1): ...] *)
Definition fill_matrix (x y : str) (D : list (list Z)) : list (list Z) :=
  foldl (fun D i => foldl (fun D j => fill_cell x y D i j) D (seq 1 (length y)))
        D (seq 1 (length x)).

(** [D[-1]] *)
Definition last_row (D : list (list Z)) : list Z := default [] (last D).

(** [min(l)] of a list of integers. *)
Definition list_min (l : list Z) : Z :=
  match l with
  | [] => 0
  | v :: l' => foldl Z.min v l'
  end.

Definition editDist_xy (x y : str) : Z :=
  let D := zero_matrix x y in
  let D := init_first_column x D in
  let D := foldl (fun D i => mset D 0 i (Z.of_nat i)) D (seq 0 (length y + 1)) in
  let D := fill_matrix x y D in
  default 0 (last (last_row D)).

Definition editDist_min (p t : str) : Z :=
  let D := zero_matrix p t in
  let D := init_first_column p D in
  let D := foldl (fun D i => mset D 0 i 0) D (seq 0 (length t + 1)) in
  let D := fill_matrix p t D in
  list_min (last_row D).

(** ** Assembly *)

(** [a.find(sub, start)] for [start >= 0]: the lowest index [i >= start]
    with [a[i:i+len(sub)] == sub], [None] for Python's [-1]. *)
Definition find (a sub : str) (start : nat) : option nat :=
  first_in (fun i => slice a i (i + length sub) = sub)
           start (length a + 1 - length sub - start).

(** [b.startswith(x)] *)
Definition startswith (b x : str) : bool := bool_decide (take (length x) b = x).

(** The [while True] loop of [overlap], entered with [start]; [None] when
    the fuel runs out. *)
Fixpoint overlap_loop (fuel : nat) (a b : str) (min_length : Z) (start : nat) : option Z :=
  match fuel with
  | O => None
  | S fuel' =>
      match find a (pyslice b None (Some min_length)) start with
      | None => Some 0
      | Some start =>
          if startswith b (pyslice a (Some (Z.of_nat start)) None)
          then Some (Z.of_nat (length a) - Z.of_nat start)
          else overlap_loop fuel' a b min_length (start + 1)
      end
  end.

(** Every round moves [start] one place to the right at least, and [find]
    gives [-1] beyond the end of [a]: [len(a) + 2] rounds are enough
    ([overlap_loop_total]). *)
Definition overlap (a b : str) (min_length : Z) : Z :=
  default 0 (overlap_loop (length a + 2) a b min_length 0).

Definition get_kmers (read : str) (k : Z) : list str :=
  (fun i : nat => pyslice read (Some (Z.of_nat i)) (Some (Z.of_nat i + k)))
    <$> seq 0 (Z.to_nat (Z.of_nat (length read) - k + 1)).

(** [index.add_read] on the dictionary [self.dct]. *)
Definition add_read (dct : gmap str (gset str)) (read : str) (k : Z) : gmap str (gset str) :=
  foldl (fun dct kmer =>
           match dct !! kmer with
           | Some reads => <[kmer := reads ∪ {[read]}]> dct
           | None => <[kmer := {[read]}]> dct
           end)
        dct (get_kmers read k).

(** The local variables [reada, readb, best_olen] of the pick functions. *)
Record best := Best { reada : option str; readb : option str; best_olen : Z }.

(** The loop [for matched_read in kmer_dct[read_suffix]] over the reads in
    the order the set yields them. *)
Definition pick_matched (read : str) (k : Z) (matched : list str) (st : best) : best :=
  foldl (fun st matched_read =>
           if bool_decide (matched_read ≠ read) then
             let olen := overlap read matched_read k in
             if olen >? best_olen st then Best (Some read) (Some matched_read) olen
             else st
           else st)
        st matched.

(** The loop [for read in reads], from the read at position [pos] on. A set
    is iterated in an order Python does not fix: [order pos s] is the order
    in which the set [s] is run through for the read at position [pos]. *)
Fixpoint pick_reads (order : nat → gset str → list str) (kmer_dct : gmap str (gset str))
    (k : Z) (pos : nat) (reads : list str) (st : best) : result best :=
  match reads with
  | [] => Ok st
  | read :: reads' =>
      let read_suffix := pyslice read (Some (- k)) None in
      match kmer_dct !! read_suffix with
      | None => Raise KeyError
      | Some matched =>
          pick_reads order kmer_dct k (S pos) reads'
                     (pick_matched read k (order pos matched) st)
      end
  end.

(** [ind = index()], [for read in reads: ind.add_read(read,k)],
    [ind.get_dct()]. *)
Definition build_index (reads : list str) (k : Z) : gmap str (gset str) :=
  foldl (fun dct read => add_read dct read k) ∅ reads.

Definition pick_max_overlap_index (order : nat → gset str → list str)
    (reads : list str) (k : Z) : result best :=
  let kmer_dct := build_index reads k in
  pick_reads order kmer_dct k 0 reads (Best None None 0).

(** [reads.remove(x)]: the first occurrence goes, [ValueError] without one. *)
Fixpoint list_remove (x : str) (reads : list str) : result (list str) :=
  match reads with
  | [] => Raise ValueError
  | r :: reads' =>
      if bool_decide (r = x) then Ok reads'
      else reads'' <~ list_remove x reads' ;; Ok (r :: reads'')
  end.

(** What a call leaves behind: the caller's list object [reads], which the
    function updates in place, and the returned string or the exception. *)
Record outcome := Outcome { reads_after : list str; returned : result str }.

(** The body of [greedy_scs_using_index] from the test of the [while] on,
    with the result [picked] of the last pick; [round] counts the picks made
    so far, and selects the iteration orders of the next one. [None] when the
    fuel runs out. A pick with [olen > 0] has strings for [reada] and [readb];
    [reads.remove(None)] would be a [ValueError]. *)
Fixpoint greedy_loop (fuel : nat) (order : nat → nat → gset str → list str)
    (k : Z) (round : nat) (reads : list str) (picked : result best) : option outcome :=
  match picked with
  | Raise e => Some (Outcome reads (Raise e))
  | Ok (Best ra rb olen) =>
      if olen >? 0 then
        match fuel with
        | O => None
        | S fuel' =>
            match ra, rb with
            | Some a, Some b =>
                match list_remove a reads with
                | Raise e => Some (Outcome reads (Raise e))
                | Ok reads1 =>
                    match list_remove b reads1 with
                    | Raise e => Some (Outcome reads1 (Raise e))
                    | Ok reads2 =>
                        let reads3 := reads2 ++ [a ++ pyslice b (Some olen) None] in
                        greedy_loop fuel' order k (S round) reads3
                                    (pick_max_overlap_index (order round) reads3 k)
                    end
                end
            | _, _ => Some (Outcome reads (Raise ValueError))
            end
        end
      else Some (Outcome reads (Ok (concat reads)))
  end.

(** Every merge shortens the list by one read: [len(reads)] rounds are
    enough ([greedy_scs_using_index_total]). *)
Definition greedy_scs_using_index (order : nat → nat → gset str → list str)
    (reads : list str) (k : Z) : option outcome :=
  greedy_loop (length reads) order k 1 reads (pick_max_overlap_index (order 0%nat) reads k).

(** ** The matchers behind approximate matching

    The notebook imports [BoyerMoore.py] and [Index_objects.py], which it
    does not contain. *)

(** [range(lo, hi)] *)
Definition range (lo hi : Z) : list Z :=
  (fun i : nat => lo + Z.of_nat i) <$> seq 0 (Z.to_nat (hi - lo)).

(** [s[i]] for an integer [i]: a negative index counts from the end, [None]
    stands for [IndexError]. *)
Definition getitem {A} (s : list A) (i : Z) : option A :=
  if i <? 0 then
    if Z.of_nat (length s) + i <? 0 then None else s !! Z.to_nat (Z.of_nat (length s) + i)
  else s !! Z.to_nat i.

(** Modelled from the spec: the class [Index] of [Index_objects.py] (4.2
    build): for every offset [0 <= i <= len(text)-k] the key [text[i:i+k]]
    receives the offset [i]; the offsets of a key are kept in ascending
    order. *)
Definition Index (text : str) (k : Z) : gmap str (list nat) :=
  foldl (fun index i =>
           let kmer := pyslice text (Some (Z.of_nat i)) (Some (Z.of_nat i + k)) in
           <[kmer := default [] (index !! kmer) ++ [i]]> index)
        ∅ (seq 0 (Z.to_nat (Z.of_nat (length text) - k + 1))).

(** Modelled from the spec: [queryIndex] of [Index_objects.py] (4.2 query):
    the offsets stored under the piece, as they are; none when the key is
    absent. *)
Definition queryIndex (p text : str) (index : gmap str (list nat)) : list nat :=
  default [] (index !! p).

(** Modelled from the spec: the sampling of a subsequence (3, 4.3): up to
    [k] symbols [s[i], s[i+stride], ...], as many as lie inside [s]. *)
Definition strided (s : str) (i : nat) (k : Z) (stride : nat) : str :=
  omap (fun m => s !! (i + m * stride)%nat) (seq 0 (Z.to_nat k)).

(** Modelled from the spec: an object of the class [SubseqIndex] of
    [Index_objects.py]: the mapping with the [k] and the stride it was built
    with. *)
Record subseq_index := SubseqIndexObj {
  sub_k : Z;
  sub_ival : nat;
  sub_dct : gmap str (list nat)
}.

(** Modelled from the spec: the class [SubseqIndex] of [Index_objects.py]
    (3, 4.3 build): a key is sampled at every start offset whose span
    [k*stride - stride + 1] fits in the text. *)
Definition SubseqIndex (text : str) (k : Z) (stride : nat) : subseq_index :=
  let span := k * Z.of_nat stride - Z.of_nat stride + 1 in
  SubseqIndexObj k stride
    (foldl (fun index i =>
              let key := strided text i k stride in
              <[key := default [] (index !! key) ++ [i]]> index)
           ∅ (seq 0 (Z.to_nat (Z.of_nat (length text) - span + 1)))).

(** Modelled from the spec: [querySubseqIndex] of [Index_objects.py] (4.3
    query): the piece is sampled the same way from its first symbol, and the
    offsets stored under that key are returned. *)
Definition querySubseqIndex (p text : str) (index : subseq_index) : list nat :=
  default [] (sub_dct index !! strided p 0 (sub_k index) (sub_ival index)).

(** Modelled from the spec: an object of the class [BoyerMoore] of
    [BoyerMoore.py], as far as the notebook uses it: its two skip rules. *)
Record BoyerMooreObj := BoyerMooreTables {
  bad_character_rule : nat → ascii → nat;
  good_suffix_rule : nat → nat
}.

(** Modelled from the spec: the entry of the bad-character table of
    [BoyerMoore.py] (3): the rightmost occurrence of the symbol [c] in [l]. *)
Definition rightmost (c : ascii) (l : str) : option nat :=
  last_in (fun r => l !! r = Some c) 0 (length l).

(** Modelled from the spec: the bad-character table of [BoyerMoore.py] (3,
    4.4): the distance that brings the rightmost occurrence of the text
    character to the left of position [j] under it, and that moves the
    pattern past the character when there is none. *)
Definition bad_character_skip (p : str) (j : nat) (c : ascii) : nat :=
  match rightmost c (take j p) with
  | Some r => j - r
  | None => j + 1
  end.

(** Modelled from the spec: the fallback of the good-suffix table of
    [BoyerMoore.py] (3): the length of the longest proper border of the
    pattern. *)
Definition longest_border (p : str) : nat :=
  default 0%nat (last_in (fun b => take b p = drop (length p - b) p) 0 (length p)).

(** Modelled from the spec: the good-suffix table of [BoyerMoore.py] (3,
    4.4): the least shift that realigns the matched suffix with another
    occurrence of it in the pattern, [p[j+1-s : len(p)-s] == p[j+1:]], and the
    shift onto the longest proper border of the pattern when the suffix
    occurs nowhere else. *)
Definition good_suffix_skip (p : str) (j : nat) : nat :=
  match first_in (fun s => slice p (j + 1 - s) (length p - s) = drop (j + 1) p)
                 1 (j + 1) with
  | Some s => s
  | None => length p - longest_border p
  end.

(** Modelled from the spec: the constructor [BoyerMoore(pattern)]. *)
Definition BoyerMoore (p : str) : BoyerMooreObj :=
  BoyerMooreTables (bad_character_skip p) (good_suffix_skip p).

(** The loop [for j in range(len(pattern) - 1, -1, -1)] up to its [break]:
    the position of the first mismatch from the right. *)
Fixpoint first_mismatch (pattern text : str) (i : nat) (js : list nat) : option nat :=
  match js with
  | [] => None
  | j :: js' =>
      if bool_decide (pattern !! j ≠ text !! (i + j)%nat) then Some j
      else first_mismatch pattern text i js'
  end.

(** The [while] loop of [boyer_moore_exact_matching] as the cell has it.
    The cell ends with the expression statement [occurrences] under
    [if not mismatched:]: no round appends to [occurrences], [shift] is
    computed and [i] is never advanced. [None] when the fuel runs out;
    [Some PyNone] when the [while] test fails: the function has no [return]. *)
Fixpoint bm_loop (fuel : nat) (pattern : str) (p_bm : BoyerMooreObj) (text : str)
    (i : nat) (occurrences : list nat) : option pyobj :=
  if bool_decide (Z.of_nat i < Z.of_nat (length text) - Z.of_nat (length pattern) + 1) then
    match fuel with
    | O => None
    | S fuel' =>
        match first_mismatch pattern text i (reverse (seq 0 (length pattern))) with
        | Some j =>
            let skip_bc := from_option (bad_character_rule p_bm j) 0%nat (text !! (i + j)%nat) in
            let skip_gs := good_suffix_rule p_bm j in
            let shift := Nat.max (Nat.max 1 skip_bc) skip_gs in
            bm_loop fuel' pattern p_bm text i occurrences
        | None => bm_loop fuel' pattern p_bm text i occurrences
        end
    end
  else Some PyNone.

(** [boyer_moore_exact_matching]: [occurrences = []], [i = 0] and the loop,
    on [fuel] rounds. *)
Definition boyer_moore_exact_matching (fuel : nat) (pattern : str) (p_bm : BoyerMooreObj)
    (text : str) : option pyobj :=
  bm_loop fuel pattern p_bm text 0 [].

(** ** Approximate matching *)

(** One of the two verification loops [for j in range(..)] with its
    [break]: the value of [mismatches] when the loop is left. *)
Fixpoint count_mismatches (pattern text : str) (n base : Z) (js : list Z) (mismatches : Z) : Z :=
  match js with
  | [] => mismatches
  | j :: js' =>
      if bool_decide (getitem pattern j ≠ getitem text (base + j)) then
        let mismatches := mismatches + 1 in
        if mismatches >? n then mismatches
        else count_mismatches pattern text n base js' mismatches
      else count_mismatches pattern text n base js' mismatches
  end.

(** The loop [for m in matches] on the set [all_matches]. *)
Definition verify_matches (pattern text : str) (n start end_ : Z) (matches : list nat)
    (all_matches : gset Z) : gset Z :=
  foldl (fun all_matches (m : nat) =>
           let m := Z.of_nat m in
           if bool_decide (m < start ∨ m - start + Z.of_nat (length pattern) > Z.of_nat (length text))
           then all_matches
           else
             let mismatches := count_mismatches pattern text n (m - start) (range 0 start) 0 in
             let mismatches :=
               count_mismatches pattern text n (m - start)
                                (range end_ (Z.of_nat (length pattern))) mismatches in
             if mismatches <=? n then all_matches ∪ {[m - start]} else all_matches)
        all_matches matches.

(** The value of [matches] for one segment by the chosen method; [fuel]
    bounds the rounds of the loop of [boyer_moore_exact_matching]. *)
Definition segment_matches (fuel : nat) (pattern text : str) (start end_ : Z)
    (method : string) : option (result pyobj) :=
  let piece := pyslice pattern (Some start) (Some end_) in
  if bool_decide (method = "BoyerMoore"%string) then
    let pattern_bm := BoyerMoore piece in
    Ok <$> boyer_moore_exact_matching fuel piece pattern_bm text
  else if bool_decide (method = "SubStringIndex"%string) then
    let k := end_ - start in
    let text_ind := Index text k in
    Some (Ok (PyList (queryIndex piece text text_ind)))
  else if bool_decide (method = "SubSeqIndex"%string) then
    let k := end_ - start in
    let text_ind := SubseqIndex text k 3 in
    Some (Ok (PyList (querySubseqIndex piece text text_ind)))
  else Some (Raise (Exception "Not a valid method!")).

(** The loop [for i in range(n + 1)] on [(total_hits, all_matches)];
    [total_hits += len(matches)] raises when [matches] is [None]. *)
Fixpoint segments_loop (fuel : nat) (pattern text : str) (n segment_len : Z)
    (method : string) (segments : list Z) (st : Z * gset Z)
    : option (result (Z * gset Z)) :=
  match segments with
  | [] => Some (Ok st)
  | i :: segments' =>
      let start := i * segment_len in
      let end_ := Z.min ((i + 1) * segment_len) (Z.of_nat (length pattern)) in
      matches <~~ segment_matches fuel pattern text start end_ method ;;
      matches <~~ Some (as_list matches) ;;
      segments_loop fuel pattern text n segment_len method segments'
        (st.1 + Z.of_nat (length matches),
         verify_matches pattern text n start end_ matches st.2)
  end.

(** [approximate_matching]: the printed [total_hits] and the set
    [all_matches]; [list(all_matches)] lists this set in an order Python does
    not fix. [//] by zero raises. [None] when a loop of
    [boyer_moore_exact_matching] has not ended after [fuel] rounds. *)
Definition approximate_matching (fuel : nat) (pattern text : str) (n : Z)
    (method : string) : option (result (Z * gset Z)) :=
  if bool_decide (n + 1 = 0) then Some (Raise ZeroDivisionError)
  else
    let segment_len := Z.of_nat (length pattern) / (n + 1) in
    segments_loop fuel pattern text n segment_len method (range 0 (n + 1)) (0, ∅).

(** ** Notions the properties are stated with *)

(** The pattern occurs verbatim at offset [o] of the text. *)
Definition occurs_at (p t : str) (o : nat) : Prop :=
  slice t o (o + length p) = p.

Global Instance occurs_at_dec (p t : str) (o : nat) : Decision (occurs_at p t o) :=
  decide (slice t o (o + length p) = p).

(** The comparison of one position in the alignment at offset [i]. *)
Definition agree (p t : str) (i j : nat) : Prop := p !! j = t !! (i + j)%nat.

Global Instance agree_dec (p t : str) (i j : nat) : Decision (agree p t i j) :=
  decide (p !! j = t !! (i + j)%nat).

(** The number of positions at which the pattern, laid on the text at
    offset [o], differs from it. *)
Definition hamming (p t : str) (o : nat) : nat :=
  length (filter (fun j => ¬ agree p t o j) (seq 0 (length p))).

(** The suffix [a[s:]] is a prefix of [b]. *)
Definition suffix_overlap (a b : str) (s : nat) : Prop :=
  take (length a - s) b = drop s a.

Global Instance suffix_overlap_dec (a b : str) (s : nat) : Decision (suffix_overlap a b s) :=
  decide (take (length a - s) b = drop s a).

(** ... and has [min_length] characters at least. *)
Definition long_overlap (a b : str) (min_length : Z) (s : nat) : Prop :=
  (s + Z.to_nat min_length ≤ length a)%nat ∧ suffix_overlap a b s.

Global Instance long_overlap_dec (a b : str) (min_length : Z) (s : nat) :
  Decision (long_overlap a b min_length s) :=
  and_dec _ _.

(** The length of the longest suffix of [a] that is a prefix of [b]: the
    suffix [a[s:]] for the least [s] that gives a prefix of [b]; the empty
    suffix always does. *)
Definition longest_overlap (a b : str) : nat :=
  (length a - default (length a) (first_in (suffix_overlap a b) 0 (length a + 1)))%nat.

(** The matrix has [r] rows of [c] cells. *)
Definition dims (r c : nat) (D : list (list Z)) : Prop :=
  length D = r ∧ Forall (fun row => length row = c) D.

(** Cell by cell, [D1] is at most [D2]. *)
Definition cells_le (D1 D2 : list (list Z)) : Prop :=
  ∀ i j, mget D1 i j ≤ mget D2 i j.

(** The two matrices have the same size and compare cell by cell. *)
Definition below (r c : nat) (D1 D2 : list (list Z)) : Prop :=
  dims r c D1 ∧ dims r c D2 ∧ cells_le D1 D2.

(** [r in sup]: the read occurs somewhere in the string. *)
Definition substring (r sup : str) : Prop :=
  ∃ o : nat, (o + length r ≤ length sup)%nat ∧ occurs_at r sup o.

(** Every set is run through in some order of its elements, which may change
    from one loop to the next. *)
Definition iteration_order (order : nat → nat → gset str → list str) : Prop :=
  ∀ round pos s, order round pos s ≡ₚ elements s.

(** The reads of the notebook's assembly test. *)
Definition notebook_reads : list str :=
  s_ <$> ["CAT"; "CTT"; "TGC"; "TGG"; "GAT"; "ATT"]%string.

(** The candidate [x] replaces the best pair so far when the loop of
    [pick_max_overlap_index] comes to it. *)
Definition beats (read : str) (k : Z) (st : best) (x : str) : Prop :=
  x ≠ read ∧ best_olen st < overlap read x k.

(** At most one candidate of the set beats the best pair so far. *)
Definition no_tie (read : str) (k : Z) (matched : list str) (st : best) : bool :=
  bool_decide (length (filter (beats read k st) matched) ≤ 1)%nat.

(** No set that [pick_reads] runs through holds two such candidates. *)
Fixpoint pick_reads_no_tie (kmer_dct : gmap str (gset str)) (k : Z)
    (reads : list str) (st : best) : bool :=
  match reads with
  | [] => true
  | read :: reads' =>
      match kmer_dct !! pyslice read (Some (- k)) None with
      | None => true
      | Some matched =>
          no_tie read k (elements matched) st
          && pick_reads_no_tie kmer_dct k reads'
               (pick_matched read k (elements matched) st)
      end
  end.

(** ... in no round of the assembly. *)
Fixpoint greedy_no_tie (fuel : nat) (k : Z) (reads : list str) : bool :=
  pick_reads_no_tie (build_index reads k) k reads (Best None None 0)
  && match fuel, pick_max_overlap_index (fun _ => elements) reads k with
     | S fuel', Ok (Best (Some a) (Some b) olen) =>
         if olen >? 0 then
           match list_remove a reads with
           | Ok reads1 =>
               match list_remove b reads1 with
               | Ok reads2 =>
                   greedy_no_tie fuel' k (reads2 ++ [a ++ pyslice b (Some olen) None])
               | Raise _ => true
               end
           | Raise _ => true
           end
         else true
     | _, _ => true
     end.

(** All the offsets at which the pattern occurs in the text, ascending. *)
Definition occurrences (p t : str) : list nat :=
  filter (occurs_at p t) (alignments p t).

(** ** The brute-force assembly *)

(** [itertools.permutations(reads, 2)]: the pairs of reads at two different
    positions, in the order of the positions. *)
Definition permutations2 {A} (l : list A) : list (A * A) :=
  enumerate l ≫= fun ia =>
  enumerate l ≫= fun jb =>
  if bool_decide (ia.1 ≠ jb.1) then [(ia.2, jb.2)] else [].

(** [pick_max_overlap]: the loop over the pairs on [reada, readb, best_olen]. *)
Definition pick_max_overlap (reads : list str) (k : Z) : best :=
  foldl (fun st ab =>
           let olen := overlap ab.1 ab.2 k in
           if olen >? best_olen st then Best (Some ab.1) (Some ab.2) olen else st)
        (Best None None 0) (permutations2 reads).

(** What a call of [greedy_scs] leaves behind: the lines it has printed
    ([print(reada, readb, reads)] at the head of every round), the caller's
    list, and the returned string or the exception. *)
Record outcome_printed := OutcomePrinted {
  printed : list (option str * option str * list str);
  outcome_of : outcome
}.

(** The [while] loop of [greedy_scs] with the result [picked] of the last
    pick and the lines [out] printed so far; [None] when the fuel runs out. *)
Fixpoint greedy_scs_loop (fuel : nat) (k : Z) (reads : list str) (picked : best)
    (out : list (option str * option str * list str)) : option outcome_printed :=
  let '(Best ra rb olen) := picked in
  if olen >? 0 then
    match fuel with
    | O => None
    | S fuel' =>
        let out := out ++ [(ra, rb, reads)] in
        match ra, rb with
        | Some a, Some b =>
            match list_remove a reads with
            | Raise e => Some (OutcomePrinted out (Outcome reads (Raise e)))
            | Ok reads1 =>
                match list_remove b reads1 with
                | Raise e => Some (OutcomePrinted out (Outcome reads1 (Raise e)))
                | Ok reads2 =>
                    let reads3 := reads2 ++ [a ++ pyslice b (Some olen) None] in
                    greedy_scs_loop fuel' k reads3 (pick_max_overlap reads3 k) out
                end
            end
        | _, _ => Some (OutcomePrinted out (Outcome reads (Raise ValueError)))
        end
    end
  else Some (OutcomePrinted out (Outcome reads (Ok (concat reads)))).

(** Every merge shortens the list by one read: [len(reads)] rounds are
    enough. *)
Definition greedy_scs (reads : list str) (k : Z) : option outcome_printed :=
  greedy_scs_loop (length reads) k reads (pick_max_overlap reads k) [].

(** [itertools.permutations(ss)]: the orders of the strings, in the order of
    their positions; [n] is the number of strings. *)
Fixpoint permutations_of {A} (n : nat) (l : list A) : list (list A) :=
  match n with
  | O => [[]]
  | S n' => enumerate l ≫= fun ia => (ia.2 ::.) <$> permutations_of n' (delete ia.1 l)
  end.

Definition itertools_permutations {A} (l : list A) : list (list A) :=
  permutations_of (length l) l.

(** The inner loop of [scs] over [range(len(ss)-1)]: the superstring [sup]
    grown from position [i] of the permutation on. An index outside the
    permutation is an [IndexError]. *)
Fixpoint scs_chain (ssperm : list str) (idxs : list nat) (sup : str) : result str :=
  match idxs with
  | [] => Ok sup
  | i :: idxs' =>
      match ssperm !! i, ssperm !! (i + 1)%nat with
      | Some a, Some b =>
          let olen := overlap a b 1 in
          scs_chain ssperm idxs' (sup ++ pyslice b (Some olen) None)
      | _, _ => Raise IndexError
      end
  end.

(** The body of the loop of [scs] for one permutation, on
    [(shortest_sup, shortest_sup_lst)]. *)
Definition scs_step (n : nat) (st : option str * list str) (ssperm : list str)
    : result (option str * list str) :=
  match ssperm !! 0%nat with
  | None => Raise IndexError
  | Some first =>
      sup <~ scs_chain ssperm (seq 0 (n - 1)) first ;;
      match st.1 with
      | Some shortest_sup =>
          if bool_decide (length sup ≤ length shortest_sup)%nat
          then Ok (Some sup, st.2 ++ [sup]) else Ok st
      | None => Ok (Some sup, st.2 ++ [sup])
      end
  end.

Fixpoint scs_loop (n : nat) (perms : list (list str)) (st : option str * list str)
    : result (option str * list str) :=
  match perms with
  | [] => Ok st
  | ssperm :: perms' => st' <~ scs_step n st ssperm ;; scs_loop n perms' st'
  end.

Definition scs (ss : list str) : result (list str) :=
  st <~ scs_loop (length ss) (itertools_permutations ss) (None, []) ;; Ok st.2.

(** ** Notions the further properties are stated with *)

(** The best pair so far carries the overlap of its two reads. *)
Definition consistent (k : Z) (st : best) : Prop :=
  0 ≤ best_olen st ∧
  (0 < best_olen st →
   ∃ a b, reada st = Some a ∧ readb st = Some b ∧ best_olen st = overlap a b k).

(** Every read of [reads] occurs in some read of the pool. *)
Definition covered (reads pool : list str) : Prop :=
  ∀ r, r ∈ reads → ∃ e, e ∈ pool ∧ substring r e.

(** The reads filed under a key. *)
Definition filed (dct : gmap str (gset str)) (kmer read : str) : Prop :=
  ∃ s, dct !! kmer = Some s ∧ read ∈ s.

(** [read[-k:]], the key that [pick_max_overlap_index] looks a read up by. *)
Definition suffix_key (read : str) (k : Z) : str := pyslice read (Some (- k)) None.


(** What the loop of [scs] keeps of [(shortest_sup, shortest_sup_lst)]:
    every string of the list holds every string of [ss] and is not longer
    than their concatenation, the lengths along the list do not grow, and
    [shortest_sup] is the last string of the list. *)
Definition scs_state (ss : list str) (st : option str * list str) : Prop :=
  (∀ sup, sup ∈ st.2 →
          (∀ s, s ∈ ss → substring s sup) ∧ (length sup ≤ length (concat ss))%nat) ∧
  StronglySorted (fun x y : str => (length y ≤ length x)%nat) st.2 ∧
  match st.1 with
  | None => st.2 = []
  | Some shortest_sup =>
      last st.2 = Some shortest_sup ∧
      ∀ x, x ∈ st.2 → (length shortest_sup ≤ length x)%nat
  end.

(** The recurrence of the distance matrix as a function of the cell: the
    first row is [first_row], the first column counts the rows, and every
    other cell is the least of the left cell plus 1, the upper cell plus 1
    and the upper left cell, plus 1 when the two characters differ. *)
Fixpoint distance_table (first_row : nat → Z) (x y : str) (i : nat) : nat → Z :=
  match i with
  | O => first_row
  | S i' =>
      fix row (j : nat) : Z :=
        match j with
        | O => Z.of_nat (S i')
        | S j' =>
            Z.min (Z.min (row j' + 1) (distance_table first_row x y i' (S j') + 1))
                  (if bool_decide (x !! i' = y !! j')
                   then distance_table first_row x y i' j'
                   else distance_table first_row x y i' j' + 1)
        end
  end.

(** The cells that the two loops have passed when they come to the cell
    [(i, j)] (the first row, the first column, the rows above [i] and the
    cells of row [i] to the left of [j]) hold the values of [table]. *)
Definition filled (r c : nat) (table : nat → nat → Z) (i j : nat)
    (D : list (list Z)) : Prop :=
  dims r c D ∧
  ∀ i' j', (i' < r)%nat → (j' < c)%nat →
           (i' = 0 ∨ j' = 0 ∨ i' < i ∨ (i' = i ∧ j' < j))%nat →
           mget D i' j' = table i' j'.

(** * Properties *)

(** ** Values the notebook shows *)

Example naive_exact_ex : naive_exact (s_ "AG") (s_ "AGCTTAGATAG") = [0; 5; 9]%nat.
Proof. vm_compute. reflexivity. Qed.

Example naive_n_mm_ex : naive_n_mm (s_ "AGT") (s_ "AGCTTAGATAG") 1 = [0; 5]%nat.
Proof. vm_compute. reflexivity. Qed.

Example reverseComplement_ex : reverseComplement (s_ "AACGTN") = Ok (s_ "NACGTT").
Proof. vm_compute. reflexivity. Qed.

(** [editDistance('TATTGGCTATACGGTT', 'GCGTATGC')] prints 11. *)
Example editDist_xy_notebook :
  editDist_xy (s_ "TATTGGCTATACGGTT") (s_ "GCGTATGC") = 11.
Proof. vm_compute. reflexivity. Qed.

(** The last cell of the notebook prints [total hits:  54] and 8 matches. *)
Example approximate_matching_notebook :
  ∃ found,
    approximate_matching 0 (s_ "AGTATCGCCT") (s_ "AGTCATGGATAGGATGGGCCCAAATAC") 7
                         "SubStringIndex" = Some (Ok (54, found)) ∧
    size found = 8%nat.
Proof. eexists. split; vm_compute; reflexivity. Qed.

(** ** Collecting offsets in a loop *)

Lemma foldl_collect {A} (f : A → bool) (l : list A) (acc : list A) :
  foldl (fun occurrences i => if f i then occurrences ++ [i] else occurrences) acc l
  = acc ++ filter (fun i => f i = true) l.
Proof.
  revert acc. induction l as [|i l IH]; intros acc; simpl.
  - by rewrite app_nil_r.
  - rewrite IH. destruct (f i) eqn:Hf.
    + rewrite filter_cons_True by done. by rewrite <- app_assoc.
    + rewrite filter_cons_False by congruence. done.
Qed.

Section search.
Context (P : nat → Prop) `{∀ i, Decision (P i)}.

Lemma first_in_Some (lo n i : nat) :
  first_in P lo n = Some i ↔
  (lo ≤ i < lo + n)%nat ∧ P i ∧ ∀ j, (lo ≤ j < i)%nat → ¬ P j.
Proof.
  unfold first_in. revert lo. induction n as [|n IH]; intros lo.
  - simpl. split; [done | lia].
  - cbn [seq]. destruct (decide (P lo)) as [HP|HP].
    + rewrite filter_cons_True by done. simpl. split.
      * intros [= <-]. split; [lia|]. split; [done|]. lia.
      * intros (Hi & _ & Hmin). f_equal.
        destruct (decide (lo = i)) as [|Hne]; [done|].
        destruct (Hmin lo); [lia | done].
    + rewrite filter_cons_False by done. rewrite IH. split.
      * intros (Hi & HPi & Hmin). split; [lia|]. split; [done|].
        intros j Hj. destruct (decide (j = lo)) as [->|]; [done|]. apply Hmin. lia.
      * intros (Hi & HPi & Hmin).
        assert (i ≠ lo) by (intros ->; done).
        split; [lia|]. split; [done|]. intros j Hj. apply Hmin. lia.
Qed.

Lemma first_in_None (lo n : nat) :
  first_in P lo n = None ↔ ∀ j, (lo ≤ j < lo + n)%nat → ¬ P j.
Proof.
  unfold first_in. rewrite head_None. split.
  - intros Hnil j Hj HP. eapply filter_nil_not_elem_of; [done..|].
    apply elem_of_seq. lia.
  - intros Hall. destruct (filter P (seq lo n)) as [|i l] eqn:Hl; [done|].
    assert (Hi : i ∈ filter P (seq lo n)) by (rewrite Hl; left).
    apply list_elem_of_filter in Hi as [HP Hi]. apply elem_of_seq in Hi.
    destruct (Hall i); [lia | done].
Qed.

Lemma last_in_Some (lo n i : nat) :
  last_in P lo n = Some i ↔
  (lo ≤ i < lo + n)%nat ∧ P i ∧ ∀ j, (i < j < lo + n)%nat → ¬ P j.
Proof.
  unfold last_in. induction n as [|n IH].
  - simpl. split; [done | lia].
  - rewrite seq_S, filter_app. destruct (decide (P (lo + n)%nat)) as [HP|HP].
    + rewrite filter_cons_True by done. rewrite filter_nil, last_snoc. split.
      * intros [= <-]. split; [lia|]. split; [done|]. lia.
      * intros (Hi & _ & Hmax). f_equal.
        destruct (decide (lo + n = i)%nat) as [|Hne]; [done|].
        destruct (Hmax (lo + n)%nat); [lia | done].
    + rewrite filter_cons_False by done. rewrite filter_nil, app_nil_r, IH. split.
      * intros (Hi & HPi & Hmax). split; [lia|]. split; [done|].
        intros j Hj. destruct (decide (j = lo + n)%nat) as [->|]; [done|]. apply Hmax. lia.
      * intros (Hi & HPi & Hmax).
        assert (i ≠ (lo + n)%nat) by (intros ->; done).
        split; [lia|]. split; [done|]. intros j Hj. apply Hmax. lia.
Qed.

Lemma last_in_None (lo n : nat) :
  last_in P lo n = None ↔ ∀ j, (lo ≤ j < lo + n)%nat → ¬ P j.
Proof.
  unfold last_in. rewrite last_None. split.
  - intros Hnil j Hj HP. eapply filter_nil_not_elem_of; [done..|].
    apply elem_of_seq. lia.
  - intros Hall. destruct (filter P (seq lo n)) as [|i l] eqn:Hl; [done|].
    assert (Hi : i ∈ filter P (seq lo n)) by (rewrite Hl; left).
    apply list_elem_of_filter in Hi as [HP Hi]. apply elem_of_seq in Hi.
    destruct (Hall i); [lia | done].
Qed.
End search.

Lemma elem_of_alignments (p t : str) (i : nat) :
  i ∈ alignments p t ↔ (i + length p ≤ length t)%nat.
Proof. unfold alignments. rewrite elem_of_seq. lia. Qed.

(** ** reverseComplement *)

Lemma complement_base (c : ascii) :
  is_base c → ∃ c', complement c = Ok c' ∧ complement c' = Ok c ∧ is_base c'.
Proof.
  unfold is_base. cbn. rewrite !elem_of_cons, elem_of_nil.
  intros [->|[->|[->|[->|[->|[]]]]]]; eexists; (split; [reflexivity|]);
    (split; [reflexivity|]); cbn; set_solver.
Qed.

Lemma reverseComplement_loop_app (s1 s2 t u : str) :
  reverseComplement_loop s1 t = Ok u →
  reverseComplement_loop (s1 ++ s2) t = reverseComplement_loop s2 u.
Proof.
  revert t. induction s1 as [|c s1 IH]; intros t; simpl.
  - by intros [= ->].
  - destruct (complement c) as [c'|e]; simpl; [apply IH | done].
Qed.

(** The loop prepends the complements one by one, and the complemented
    strand is valid again and leads back. *)
Lemma reverseComplement_loop_spec (s t : str) :
  Forall is_base s →
  ∃ cs, reverseComplement_loop s t = Ok (reverse cs ++ t) ∧ Forall is_base cs ∧
        ∀ u, reverseComplement_loop (reverse cs) u = Ok (s ++ u).
Proof.
  intros Hs. revert t. induction Hs as [|c s Hc Hs IH]; intros t; simpl.
  - exists []. split; [done|]. split; [done|]. by intros u.
  - destruct (complement_base c Hc) as (c' & Hc1 & Hc2 & Hc').
    rewrite Hc1. simpl.
    destruct (IH (c' :: t)) as (cs & Hrun & Hcs & Hback).
    exists (c' :: cs). split; [|split].
    + rewrite Hrun, reverse_cons, <- app_assoc. done.
    + by constructor.
    + intros u. rewrite reverse_cons.
      assert (Hone : reverseComplement_loop [c'] (s ++ u) = Ok (c :: s ++ u)).
      { simpl. by rewrite Hc2. }
      rewrite <- Hone. apply reverseComplement_loop_app, Hback.
Qed.

(** C9: reverseComplement is an involution on valid sequences. For every
    string [pattern] over the alphabet {A, C, G, T, N} the call
    [reverseComplement(pattern)] returns a string, and the reverse complement
    of that string is [pattern] again. *)
Theorem reverseComplement_involutive (pattern : str) :
  Forall is_base pattern →
  ∃ rc, reverseComplement pattern = Ok rc ∧ reverseComplement rc = Ok pattern.
Proof.
  intros Hp. destruct (reverseComplement_loop_spec pattern [] Hp) as (cs & Hrun & _ & Hback).
  exists (reverse cs). unfold reverseComplement. split.
  - by rewrite Hrun, app_nil_r.
  - by rewrite Hback, app_nil_r.
Qed.

Lemma reverseComplement_involutive_witness :
  Forall is_base (s_ "AACGTN") ∧
  ∃ rc, reverseComplement (s_ "AACGTN") = Ok rc ∧ reverseComplement rc = Ok (s_ "AACGTN").
Proof.
  assert (H : Forall is_base (s_ "AACGTN")).
  { unfold is_base. cbn. repeat constructor; set_solver. }
  split; [exact H | exact (reverseComplement_involutive (s_ "AACGTN") H)].
Defined.

(** ** Naive matching *)

Lemma slice_cons_iff (t p : str) (o : nat) (c : ascii) :
  take (length (c :: p)) (drop o t) = c :: p ↔
  t !! o = Some c ∧ take (length p) (drop (S o) t) = p.
Proof.
  destruct (t !! o) as [c'|] eqn:Ho.
  - rewrite (drop_S _ _ _ Ho). simpl.
    split; [intros [= -> ->]; done | intros [[= ->] ->]; done].
  - rewrite drop_ge by (by apply lookup_ge_None). simpl.
    split; [done | intros [[=] _]].
Qed.

(** The inner loop of [naive_exact] leaves [match] set exactly when the
    pattern is read off the text. *)
Lemma naive_exact_chars_true (t p : str) (i k : nat) :
  naive_exact_chars t i (imap (fun j => pair (k + j)%nat) p) = true ↔
  take (length p) (drop (i + k) t) = p.
Proof.
  revert k. induction p as [|c p IH]; intros k.
  - simpl. by rewrite take_0.
  - rewrite slice_cons_iff. cbn [imap naive_exact_chars].
    rewrite Nat.add_0_r. case_bool_decide as Hc.
    + split; [done | intros [? _]; done].
    + rewrite (imap_ext _ (fun j => pair (S k + j)%nat)); [|intros; simpl; f_equal; lia].
      rewrite IH. replace (i + S k)%nat with (S (i + k)) by lia. tauto.
Qed.

Lemma naive_exact_chars_occurs (p t : str) (i : nat) :
  naive_exact_chars t i (enumerate p) = true ↔ occurs_at p t i.
Proof.
  unfold enumerate, occurs_at, slice.
  rewrite (imap_ext _ (fun j => pair (0 + j)%nat)) by done.
  rewrite naive_exact_chars_true. rewrite Nat.add_0_r.
  by replace (i + length p - i)%nat with (length p) by lia.
Qed.

Lemma naive_exact_filter (p t : str) :
  naive_exact p t
  = filter (fun i => naive_exact_chars t i (enumerate p) = true) (alignments p t).
Proof. unfold naive_exact. by rewrite foldl_collect. Qed.

(** C3: every offset reported by [naive_exact] is an occurrence. For every
    pattern [p], text [t] and offset [o] in the list [naive_exact(p, t)],
    [t[o:o+len(p)] == p]. *)
Theorem naive_exact_sound (p t : str) (o : nat) :
  o ∈ naive_exact p t → slice t o (o + length p) = p.
Proof.
  rewrite naive_exact_filter, list_elem_of_filter.
  intros [Hm _]. by apply naive_exact_chars_occurs.
Qed.

Lemma naive_exact_sound_witness :
  5%nat ∈ naive_exact (s_ "AG") (s_ "AGCTTAGATAG") ∧
  slice (s_ "AGCTTAGATAG") 5 (5 + length (s_ "AG")) = s_ "AG".
Proof.
  assert (H : 5%nat ∈ naive_exact (s_ "AG") (s_ "AGCTTAGATAG")).
  { vm_compute. set_solver. }
  split; [exact H | exact (naive_exact_sound _ _ _ H)].
Defined.

(** The offsets [naive_exact] reports are all the occurrences that fit in
    the text, in ascending order. *)
Lemma elem_of_naive_exact (p t : str) (o : nat) :
  o ∈ naive_exact p t ↔ (o + length p ≤ length t)%nat ∧ occurs_at p t o.
Proof.
  rewrite naive_exact_filter, list_elem_of_filter.
  by rewrite naive_exact_chars_occurs, elem_of_alignments, (comm and).
Qed.

(** The inner loop of [naive_n_mm] with no mismatch allowed leaves the loop
    at the first mismatch, as the inner loop of [naive_exact] does. *)
Lemma naive_n_mm_chars_zero (p t p' : str) (i k : nat) :
  drop k p = p' →
  naive_n_mm_chars p t 0 i (seq k (length p')) 0
  = naive_exact_chars t i (imap (fun j => pair (k + j)%nat) p').
Proof.
  revert k. induction p' as [|c p' IH]; intros k Hk; [done|].
  assert (Hc : p !! k = Some c).
  { rewrite <- (Nat.add_0_r k), <- lookup_drop, Hk. done. }
  cbn [length seq imap naive_n_mm_chars naive_exact_chars].
  rewrite Nat.add_0_r, Hc.
  case_bool_decide; [done|].
  rewrite (imap_ext _ (fun j => pair (S k + j)%nat)); [|intros; simpl; f_equal; lia].
  apply IH. erewrite drop_S in Hk by done. by injection Hk.
Qed.

(** C10: with a budget of zero mismatches the n-mismatch matcher is the
    exact matcher. For every pattern [p] and text [t], [naive_n_mm(p, t, 0)]
    returns the same list of offsets as [naive_exact(p, t)]. *)
Theorem naive_n_mm_zero (p t : str) :
  naive_n_mm p t 0 = naive_exact p t.
Proof.
  unfold naive_n_mm, naive_exact. rewrite !foldl_collect. f_equal.
  apply list_filter_iff. intros i.
  rewrite (naive_n_mm_chars_zero p t p i 0) by done. done.
Qed.

(** ** overlap *)

Lemma find_Some (a sub : str) (start s : nat) :
  find a sub start = Some s ↔
  (start ≤ s)%nat ∧ (s + length sub ≤ length a)%nat ∧
  slice a s (s + length sub) = sub ∧
  ∀ j, (start ≤ j < s)%nat → slice a j (j + length sub) ≠ sub.
Proof.
  unfold find. rewrite first_in_Some. split.
  - intros (Hs & Hhit & Hmin). split; [lia|]. split; [lia|]. done.
  - intros (Hs & Hfit & Hhit & Hmin). split; [lia|]. done.
Qed.

Lemma find_None (a sub : str) (start : nat) :
  find a sub start = None ↔
  ∀ j, (start ≤ j)%nat → (j + length sub ≤ length a)%nat →
       slice a j (j + length sub) ≠ sub.
Proof.
  unfold find. rewrite first_in_None. split.
  - intros Hno j Hj Hfit. apply Hno. lia.
  - intros Hno j Hj. apply Hno; lia.
Qed.

(** The loop of [overlap] comes to an end. *)
Lemma overlap_loop_total (a b : str) (min_length : Z) (fuel start : nat) :
  (length a + 2 ≤ fuel + start)%nat → (1 ≤ fuel)%nat →
  is_Some (overlap_loop fuel a b min_length start).
Proof.
  revert start. induction fuel as [|fuel IH]; intros start Hfuel Hpos; [lia|].
  simpl. destruct (find a _ start) as [s|] eqn:Hfind; [|done].
  apply find_Some in Hfind as (Hs & Hfit & _).
  destruct (startswith b _); [done|]. apply IH; lia.
Qed.

Lemma overlap_returns (a b : str) (min_length : Z) :
  overlap_loop (length a + 2) a b min_length 0 = Some (overlap a b min_length).
Proof.
  unfold overlap.
  destruct (overlap_loop_total a b min_length (length a + 2) 0) as [v ->]; [lia..|done].
Qed.

Lemma pyslice_prefix {A} (b : list A) (m : Z) :
  0 ≤ m → pyslice b None (Some m) = take (Z.to_nat m) b.
Proof.
  intros Hm. unfold pyslice, slice, clamp. simpl.
  rewrite (proj2 (Z.ltb_ge m 0)) by done.
  rewrite Nat.sub_0_r, drop_0.
  destruct (decide (Z.to_nat m ≤ length b)%nat).
  - by rewrite Nat.min_l.
  - rewrite Nat.min_r by lia. by rewrite !take_ge by lia.
Qed.

Lemma pyslice_suffix {A} (a : list A) (s : nat) :
  pyslice a (Some (Z.of_nat s)) None = drop s a.
Proof.
  unfold pyslice, slice, clamp. simpl.
  rewrite (proj2 (Z.ltb_ge (Z.of_nat s) 0)) by lia. rewrite Nat2Z.id.
  destruct (decide (s ≤ length a)%nat).
  - rewrite Nat.min_l by done. apply take_ge. rewrite length_drop. lia.
  - rewrite Nat.min_r by lia. rewrite Nat.sub_diag, take_0, drop_ge by lia. done.
Qed.

Section overlap_in_range.
Context (a b : str) (min_length : Z).
Hypothesis Hrange : 0 ≤ min_length ≤ Z.of_nat (length b).

Local Lemma length_prefix :
  length (pyslice b None (Some min_length)) = Z.to_nat min_length.
Proof. rewrite pyslice_prefix by lia. rewrite length_take. lia. Qed.

(** A suffix that overlaps with [min_length] characters starts with
    [b[:min_length]]. *)
Local Lemma long_overlap_hit (s : nat) :
  long_overlap a b min_length s →
  slice a s (s + Z.to_nat min_length) = pyslice b None (Some min_length).
Proof.
  intros [Hfit Hov]. unfold slice. rewrite pyslice_prefix by lia.
  rewrite <- Hov, take_take. f_equal. lia.
Qed.

Local Lemma startswith_overlap (s : nat) :
  (s ≤ length a)%nat →
  startswith b (pyslice a (Some (Z.of_nat s)) None) = true ↔ suffix_overlap a b s.
Proof.
  intros Hs. unfold startswith, suffix_overlap. rewrite pyslice_suffix.
  rewrite bool_decide_eq_true, length_drop. done.
Qed.

Local Lemma overlap_loop_first_long_overlap (fuel start : nat) :
  (length a + 2 ≤ fuel + start)%nat → (1 ≤ fuel)%nat →
  (∀ s, (s < start)%nat → ¬ long_overlap a b min_length s) →
  overlap_loop fuel a b min_length start
  = Some (from_option (fun s : nat => Z.of_nat (length a) - Z.of_nat s) 0
                      (first_in (long_overlap a b min_length) 0 (length a + 1))).
Proof.
  revert start. induction fuel as [|fuel IH]; intros start Hfuel Hpos Hbefore; [lia|].
  simpl. destruct (find a _ start) as [s|] eqn:Hfind.
  - apply find_Some in Hfind as (Hs & Hfit & Hhit & Hmin).
    rewrite length_prefix in Hfit, Hhit, Hmin.
    assert (Hnone : ∀ j, (j < s)%nat → ¬ long_overlap a b min_length j).
    { intros j Hj Hgood. destruct (decide (j < start)%nat); [by eapply Hbefore|].
      apply (Hmin j); [lia|]. by apply long_overlap_hit. }
    destruct (startswith b _) eqn:Hsw.
    + apply startswith_overlap in Hsw; [|lia].
      rewrite (proj2 (first_in_Some (long_overlap a b min_length) 0 (length a + 1) s)); [done|].
      split; [lia|]. split; [done|]. intros j Hj. apply Hnone. lia.
    + apply IH; [lia..|]. intros j Hj Hgood.
      destruct (decide (j = s)) as [->|]; [|apply (Hnone j); [lia|done]].
      destruct Hgood as [_ Hov].
      apply startswith_overlap in Hov; [congruence|lia].
  - rewrite (proj2 (first_in_None (long_overlap a b min_length) 0 (length a + 1))); [done|].
    intros j Hj Hgood. destruct (decide (j < start)%nat); [by eapply Hbefore|].
    eapply find_None in Hfind; [apply Hfind; rewrite length_prefix; by apply long_overlap_hit|lia|].
    rewrite length_prefix. apply Hgood.
Qed.

(** For a [min_length] between [0] and [len(b)], [overlap] is the length
    of the longest suffix of [a] that is a prefix of [b] when that length
    reaches [min_length], and [0] otherwise. *)
Lemma overlap_in_range :
  overlap a b min_length
  = if min_length <=? Z.of_nat (longest_overlap a b)
    then Z.of_nat (longest_overlap a b) else 0.
Proof.
  unfold overlap. rewrite (overlap_loop_first_long_overlap (length a + 2) 0); [|lia..].
  simpl. unfold longest_overlap.
  destruct (first_in (suffix_overlap a b) 0 (length a + 1)) as [s0|] eqn:H0.
  2:{ eapply first_in_None in H0; [destruct H0|].
      - unfold suffix_overlap. rewrite Nat.sub_diag, take_0, drop_ge; done.
      - lia. }
  apply first_in_Some in H0 as (Hs0 & Hov0 & Hmin0). simpl.
  destruct (first_in (long_overlap a b min_length) 0 (length a + 1)) as [s|] eqn:Hg; simpl.
  - apply first_in_Some in Hg as (Hs & [Hfit Hov] & Hmin).
    assert (s0 = s) as ->.
    { destruct (decide (s0 = s)) as [|Hne]; [done|].
      destruct (decide (s0 < s)%nat).
      - destruct (Hmin s0); [lia|]. split; [lia | done].
      - destruct (Hmin0 s); [lia | done]. }
    rewrite (proj2 (Z.leb_le _ _)) by lia. lia.
  - rewrite (proj2 (Z.leb_gt _ _)); [done|].
    destruct (decide (s0 + Z.to_nat min_length ≤ length a)%nat); [|lia].
    eapply first_in_None in Hg; [destruct Hg; split; done | lia].
Qed.
End overlap_in_range.

(** The value the notebook shows for [overlap('ATGCAAT','CAATCCC',2)]. *)
Example overlap_notebook : overlap (s_ "ATGCAAT") (s_ "CAATCCC") 2 = 4.
Proof. vm_compute. reflexivity. Qed.

(** C5: [overlap] with a [min_length] beyond the length of [b] returns a
    positive value smaller than [min_length]. The longest suffix of "XAB"
    that is a prefix of "AB" has length 2, less than the [min_length] of 3,
    and [overlap("XAB", "AB", 3)] is 2 and not 0. *)
Theorem overlap_below_min_length :
  longest_overlap (s_ "XAB") (s_ "AB") = 2%nat ∧
  overlap (s_ "XAB") (s_ "AB") 3 = 2.
Proof. split; vm_compute; reflexivity. Qed.


(** ** Edit distance *)

Lemma dims_mset (r c : nat) (D : list (list Z)) (i j : nat) (v : Z) :
  dims r c D → dims r c (mset D i j v).
Proof.
  intros [Hr Hc]. split.
  - unfold mset. by rewrite length_alter.
  - apply Forall_alter; [done|]. intros row _ Hrow. by rewrite length_insert.
Qed.

Lemma mget_mset (r c : nat) (D : list (list Z)) (i j i' j' : nat) (v : Z) :
  dims r c D →
  mget (mset D i j v) i' j'
  = if decide (i = i' ∧ j = j' ∧ (i < r)%nat ∧ (j < c)%nat) then v else mget D i' j'.
Proof.
  intros [Hr Hc]. unfold mget, mset. rewrite list_lookup_alter.
  destruct (decide (i = i')) as [<-|Hi]; [|by rewrite decide_False by tauto].
  destruct (D !! i) as [row|] eqn:Hrow; simpl.
  - assert (length row = c) by (by eapply Forall_lookup_1 in Hc).
    apply lookup_lt_Some in Hrow. rewrite list_lookup_insert.
    destruct (decide (j = j' ∧ (j < length row)%nat)) as [[<- ?]|Hj].
    + by rewrite decide_True by (split_and!; lia).
    + by rewrite decide_False by (intros (? & ? & ? & ?); apply Hj; split; lia).
  - apply lookup_ge_None in Hrow. by rewrite decide_False by lia.
Qed.

Lemma cells_le_mset (r c : nat) (D1 D2 : list (list Z)) (i j : nat) (v1 v2 : Z) :
  dims r c D1 → dims r c D2 → cells_le D1 D2 → v1 ≤ v2 →
  cells_le (mset D1 i j v1) (mset D2 i j v2).
Proof.
  intros H1 H2 Hle Hv i' j'.
  rewrite (mget_mset r c D1), (mget_mset r c D2) by done.
  case_decide; [done | apply Hle].
Qed.

(** A loop whose body keeps an invariant on a pair of matrices. *)
Lemma foldl_pair_invariant {A} (R : list (list Z) → list (list Z) → Prop)
    (f g : list (list Z) → A → list (list Z)) (l : list A) (D1 D2 : list (list Z)) :
  (∀ D1 D2 x, R D1 D2 → R (f D1 x) (g D2 x)) →
  R D1 D2 → R (foldl f D1 l) (foldl g D2 l).
Proof.
  intros Hstep. revert D1 D2. induction l as [|x l IH]; intros D1 D2 HR; simpl; [done|].
  apply IH, Hstep, HR.
Qed.

Lemma below_mset (r c : nat) (D1 D2 : list (list Z)) (i j : nat) (v1 v2 : Z) :
  below r c D1 D2 → v1 ≤ v2 → below r c (mset D1 i j v1) (mset D2 i j v2).
Proof.
  intros (H1 & H2 & Hle) Hv.
  split_and!; [by apply dims_mset..|by eapply cells_le_mset].
Qed.

Lemma below_fill_cell (x y : str) (r c : nat) (D1 D2 : list (list Z)) (i j : nat) :
  below r c D1 D2 → below r c (fill_cell x y D1 i j) (fill_cell x y D2 i j).
Proof.
  intros HR. unfold fill_cell. apply below_mset; [done|].
  destruct HR as (_ & _ & Hle).
  pose proof (Hle i (j - 1)%nat). pose proof (Hle (i - 1)%nat j).
  pose proof (Hle (i - 1)%nat (j - 1)%nat).
  case_bool_decide; lia.
Qed.

Lemma below_fill_matrix (x y : str) (r c : nat) (D1 D2 : list (list Z)) :
  below r c D1 D2 → below r c (fill_matrix x y D1) (fill_matrix x y D2).
Proof.
  unfold fill_matrix. apply (foldl_pair_invariant (below r c)).
  intros D1' D2' i. apply (foldl_pair_invariant (below r c)).
  intros D1'' D2'' j. apply below_fill_cell.
Qed.

Lemma dims_zero_matrix (x y : str) :
  dims (length x + 1) (length y + 1) (zero_matrix x y).
Proof.
  split; [apply length_replicate|]. apply Forall_replicate, length_replicate.
Qed.

(** The matrix of [editDist_min] lies below the matrix of [editDist_xy]
    before the cells are filled: the first rows are [0, 0, ..] and
    [0, 1, ..]. *)
Lemma below_initial (x y : str) :
  below (length x + 1) (length y + 1)
    (foldl (fun D i => mset D 0 i 0) (init_first_column x (zero_matrix x y))
           (seq 0 (length y + 1)))
    (foldl (fun D i => mset D 0 i (Z.of_nat i)) (init_first_column x (zero_matrix x y))
           (seq 0 (length y + 1))).
Proof.
  apply (foldl_pair_invariant (below _ _)).
  - intros D1 D2 i HR. apply below_mset; [done | lia].
  - unfold init_first_column.
    apply (foldl_pair_invariant (below _ _)).
    + intros D1 D2 i HR. by apply below_mset.
    + split_and!; [apply dims_zero_matrix..|]. by intros i j.
Qed.

Lemma list_min_le (l : list Z) (v : Z) : v ∈ l → list_min l ≤ v.
Proof.
  destruct l as [|w l]; [by intros ?%elem_of_nil|]. simpl.
  assert (Hacc : ∀ l acc, foldl Z.min acc l ≤ acc).
  { clear. induction l as [|u l IH]; intros acc; simpl; [lia|].
    etrans; [apply IH|lia]. }
  revert w. induction l as [|u l IH]; intros w; simpl.
  - intros ->%list_elem_of_singleton. done.
  - intros [->|[->|Hv]%elem_of_cons]%elem_of_cons.
    + etrans; [apply Hacc|lia].
    + etrans; [apply Hacc|lia].
    + apply IH. by right.
Qed.

(** The bottom right cell [D[-1][-1]]. *)
Lemma last_last_row (r c : nat) (D : list (list Z)) :
  dims (r + 1) (c + 1) D →
  last (last_row D) = Some (mget D r c) ∧ mget D r c ∈ last_row D.
Proof.
  intros [Hr Hc]. unfold last_row, mget. rewrite (last_lookup D), Hr.
  replace (pred (r + 1)) with r by lia.
  destruct (D !! r) as [row|] eqn:Hrow; [|apply lookup_ge_None in Hrow; lia].
  simpl. eapply Forall_lookup_1 in Hc; [|done].
  rewrite (last_lookup row), Hc. replace (pred (c + 1)) with c by lia.
  destruct (row !! c) as [v|] eqn:Hv; [|apply lookup_ge_None in Hv; lia].
  simpl. split; [done|]. by eapply list_elem_of_lookup_2.
Qed.

(** The bound holds whatever the lengths are. *)
Lemma editDist_min_le_xy (p t : str) : editDist_min p t ≤ editDist_xy p t.
Proof.
  unfold editDist_min, editDist_xy.
  destruct (below_fill_matrix p t _ _ _ _ (below_initial p t)) as (H1 & H2 & Hle).
  destruct (last_last_row _ _ _ H1) as [_ Hin].
  destruct (last_last_row _ _ _ H2) as [-> _]. simpl.
  etrans; [by apply list_min_le | apply Hle].
Qed.

(** C8: the best-placement edit distance is bounded by the plain edit
    distance. For every pattern [p] and text [t] with [len(t) >= len(p)],
    [editDist_min(p, t) <= editDist_xy(p, t)]. *)
Theorem editDist_min_bounded (p t : str) :
  (length p ≤ length t)%nat → editDist_min p t ≤ editDist_xy p t.
Proof. intros _. apply editDist_min_le_xy. Qed.

Lemma editDist_min_bounded_witness :
  (length (s_ "GCGTATGC") ≤ length (s_ "TATTGGCTATACGGTT"))%nat ∧
  editDist_min (s_ "GCGTATGC") (s_ "TATTGGCTATACGGTT")
  ≤ editDist_xy (s_ "GCGTATGC") (s_ "TATTGGCTATACGGTT").
Proof.
  assert (H : (length (s_ "GCGTATGC") ≤ length (s_ "TATTGGCTATACGGTT"))%nat).
  { vm_compute. lia. }
  split; [exact H | exact (editDist_min_bounded _ _ H)].
Defined.


(** ** Greedy assembly *)

(** No read of the set beats the best overlap so far. *)
Lemma pick_matched_none (read : str) (k : Z) (matched : list str) (st : best) :
  Forall (fun x => x ≠ read → overlap read x k ≤ best_olen st) matched →
  pick_matched read k matched st = st.
Proof.
  unfold pick_matched. induction 1 as [|x l Hx _ IH]; simpl; [done|].
  case_bool_decide as Hne; [|done].
  destruct (Z.gtb_spec (overlap read x k) (best_olen st)); [|done].
  specialize (Hx Hne). lia.
Qed.

(** One read of the set only beats the best overlap so far: it is picked,
    wherever the order of the set places it. *)
Lemma pick_matched_one (read x0 : str) (k : Z) (matched : list str) (st : best) :
  x0 ∈ matched → x0 ≠ read → best_olen st < overlap read x0 k →
  Forall (fun x => x ≠ read → x ≠ x0 → overlap read x k ≤ best_olen st) matched →
  pick_matched read k matched st = Best (Some read) (Some x0) (overlap read x0 k).
Proof.
  intros Hin Hne Hgt Hall. revert Hin.
  induction Hall as [|x l Hx Hall IH]; [by intros ?%elem_of_nil|].
  intros Hin. unfold pick_matched. cbn [foldl]. fold (pick_matched read k l).
  destruct (decide (x = x0)) as [->|Hx0].
  - rewrite bool_decide_eq_true_2 by done.
    destruct (Z.gtb_spec (overlap read x0 k) (best_olen st)); [|lia].
    apply pick_matched_none. simpl. eapply Forall_impl; [exact Hall|].
    intros y Hy Hyr. destruct (decide (y = x0)) as [->|Hy0]; [lia|].
    specialize (Hy Hyr Hy0). lia.
  - apply elem_of_cons in Hin as [->|Hin]; [done|].
    case_bool_decide as Hxr; [|by apply IH].
    destruct (Z.gtb_spec (overlap read x k) (best_olen st)); [|by apply IH].
    specialize (Hx Hxr Hx0). lia.
Qed.

(** The loop over a set with at most one candidate that beats the best pair
    so far gives the same pair in every order. *)
Lemma pick_matched_perm (read : str) (k : Z) (l l' : list str) (st : best) :
  l' ≡ₚ l → no_tie read k l st = true →
  pick_matched read k l' st = pick_matched read k l st.
Proof.
  intros Hperm Htie. apply bool_decide_eq_true in Htie.
  destruct (filter (beats read k st) l) as [|x0 [|x1 rest]] eqn:Hbeat;
    [| |simpl in Htie; lia].
  - assert (Hnone : Forall (fun x => x ≠ read → overlap read x k ≤ best_olen st) l).
    { apply Forall_forall. intros x Hx Hne.
      destruct (decide (overlap read x k ≤ best_olen st)); [done|].
      eapply (filter_nil_not_elem_of (beats read k st)) in Hbeat; [done|].
      split; [done | lia]. }
    rewrite !pick_matched_none; [done..|]. by rewrite Hperm.
  - assert (Hx0 : x0 ∈ filter (beats read k st) l) by (rewrite Hbeat; left).
    apply list_elem_of_filter in Hx0 as [[Hne Hgt] Hin].
    assert (Hone : Forall (fun x => x ≠ read → x ≠ x0 →
                                     overlap read x k ≤ best_olen st) l).
    { apply Forall_forall. intros x Hx Hxr Hx0.
      destruct (decide (overlap read x k ≤ best_olen st)); [done|].
      assert (Hin' : x ∈ filter (beats read k st) l).
      { apply list_elem_of_filter. split; [split; [done|lia] | done]. }
      rewrite Hbeat in Hin'. by apply list_elem_of_singleton in Hin'. }
    rewrite !(pick_matched_one read x0); try done; by rewrite Hperm.
Qed.

Lemma pick_reads_perm (ord : nat → gset str → list str)
    (kmer_dct : gmap str (gset str)) (k : Z) (pos : nat) (reads : list str) (st : best) :
  (∀ pos s, ord pos s ≡ₚ elements s) →
  pick_reads_no_tie kmer_dct k reads st = true →
  pick_reads ord kmer_dct k pos reads st
  = pick_reads (fun _ => elements) kmer_dct k pos reads st.
Proof.
  intros Hord. revert pos st. induction reads as [|read reads IH]; intros pos st; [done|].
  cbn [pick_reads pick_reads_no_tie].
  destruct (kmer_dct !! _) as [matched|]; [|done].
  intros [Htie Hrest]%andb_true_iff.
  rewrite (pick_matched_perm read k (elements matched)) by done.
  by apply IH.
Qed.

Lemma pick_max_overlap_index_perm (ord : nat → gset str → list str)
    (reads : list str) (k : Z) :
  (∀ pos s, ord pos s ≡ₚ elements s) →
  pick_reads_no_tie (build_index reads k) k reads (Best None None 0) = true →
  pick_max_overlap_index ord reads k
  = pick_max_overlap_index (fun _ => elements) reads k.
Proof. intros Hord Htie. by apply pick_reads_perm. Qed.

Lemma greedy_loop_perm (order : nat → nat → gset str → list str) (k : Z)
    (fuel round round' : nat) (reads : list str) :
  iteration_order order →
  greedy_no_tie fuel k reads = true →
  greedy_loop fuel order k round reads
              (pick_max_overlap_index (fun _ => elements) reads k)
  = greedy_loop fuel (fun _ _ => elements) k round' reads
                (pick_max_overlap_index (fun _ => elements) reads k).
Proof.
  intros Hord. revert round round' reads.
  induction fuel as [|fuel IH]; intros round round' reads Htie.
  - cbn [greedy_loop]. by destruct (pick_max_overlap_index _ reads k) as [[a b olen]|].
  - cbn [greedy_no_tie] in Htie. apply andb_true_iff in Htie as [_ Htie].
    cbn [greedy_loop].
    destruct (pick_max_overlap_index _ reads k) as [[[a|] [b|] olen]|]; try done.
    destruct (olen >? 0); [|done].
    destruct (list_remove a reads) as [reads1|]; [|done].
    destruct (list_remove b reads1) as [reads2|]; [|done].
    assert (Hpick : pick_reads_no_tie
                      (build_index (reads2 ++ [a ++ pyslice b (Some olen) None]) k) k
                      (reads2 ++ [a ++ pyslice b (Some olen) None])
                      (Best None None 0) = true).
    { destruct fuel; cbn [greedy_no_tie] in Htie;
        by apply andb_true_iff in Htie as [? _]. }
    rewrite (pick_max_overlap_index_perm (order round)) by (done || apply Hord).
    by apply IH.
Qed.

(** Where no set holds two candidates that beat the best pair, the assembly
    does not depend on the orders in which the sets are run through. *)
Lemma greedy_scs_using_index_perm (order : nat → nat → gset str → list str)
    (reads : list str) (k : Z) :
  iteration_order order →
  greedy_no_tie (length reads) k reads = true →
  greedy_scs_using_index order reads k
  = greedy_scs_using_index (fun _ _ => elements) reads k.
Proof.
  intros Hord Htie. unfold greedy_scs_using_index.
  rewrite (pick_max_overlap_index_perm (order 0%nat)); [by apply greedy_loop_perm|apply Hord|].
  destruct (length reads); cbn [greedy_no_tie] in Htie;
    by apply andb_true_iff in Htie as [? _].
Qed.

(** The two ways through the [while] of [greedy_scs_using_index]. *)
Lemma greedy_loop_merge (fuel : nat) (order : nat → nat → gset str → list str)
    (k : Z) (round : nat) (reads reads1 reads2 : list str) (a b : str) (olen : Z) :
  0 < olen → list_remove a reads = Ok reads1 → list_remove b reads1 = Ok reads2 →
  greedy_loop (S fuel) order k round reads (Ok (Best (Some a) (Some b) olen))
  = let reads3 := reads2 ++ [a ++ pyslice b (Some olen) None] in
    greedy_loop fuel order k (S round) reads3
                (pick_max_overlap_index (order round) reads3 k).
Proof.
  intros Holen Ha Hb. cbn [greedy_loop].
  rewrite (proj2 (Z.gtb_gt _ _)) by lia. by rewrite Ha, Hb.
Qed.

Lemma greedy_loop_done (fuel : nat) (order : nat → nat → gset str → list str)
    (k : Z) (round : nat) (reads : list str) (a b : option str) (olen : Z) :
  olen ≤ 0 →
  greedy_loop fuel order k round reads (Ok (Best a b olen))
  = Some (Outcome reads (Ok (concat reads))).
Proof.
  intros Holen. destruct fuel; cbn [greedy_loop];
    by rewrite Z.gtb_ltb, (proj2 (Z.ltb_ge _ _)) by lia.
Qed.

Lemma notebook_assembly (order : nat → nat → gset str → list str) :
  iteration_order order →
  greedy_scs_using_index order notebook_reads 2
  = Some (Outcome (s_ <$> ["CTT"; "TGC"; "TGG"; "GAT"; "CATT"]%string)
                  (Ok (s_ "CTTTGCTGGGATCATT"))).
Proof.
  intros Hord. rewrite greedy_scs_using_index_perm; [|done|].
  - vm_compute. reflexivity.
  - vm_compute. reflexivity.
Qed.

(** C4: the assembly of the notebook's six reads. Whatever the order in
    which the sets of the k-mer index are run through,
    [greedy_scs_using_index(["CAT","CTT","TGC","TGG","GAT","ATT"], 2)]
    returns a string of length 16 that contains each of the six reads. *)
Theorem greedy_scs_using_index_notebook (order : nat → nat → gset str → list str) :
  iteration_order order →
  ∃ after sup,
    greedy_scs_using_index order notebook_reads 2 = Some (Outcome after (Ok sup)) ∧
    length sup = 16%nat ∧
    Forall (fun read => substring read sup) notebook_reads.
Proof.
  intros Hord. do 2 eexists. split; [by apply notebook_assembly|].
  split; [reflexivity|].
  unfold notebook_reads. cbn [fmap list_fmap].
  repeat constructor.
  - exists 12%nat. split; [vm_compute; lia | reflexivity].
  - exists 0%nat. split; [vm_compute; lia | reflexivity].
  - exists 3%nat. split; [vm_compute; lia | reflexivity].
  - exists 6%nat. split; [vm_compute; lia | reflexivity].
  - exists 9%nat. split; [vm_compute; lia | reflexivity].
  - exists 13%nat. split; [vm_compute; lia | reflexivity].
Qed.

Lemma elements_iteration_order : iteration_order (fun _ _ => elements).
Proof. by intros round pos s. Qed.

Lemma greedy_scs_using_index_notebook_witness :
  iteration_order (fun _ _ => elements) ∧
  ∃ after sup,
    greedy_scs_using_index (fun _ _ => elements) notebook_reads 2
    = Some (Outcome after (Ok sup)) ∧
    length sup = 16%nat ∧
    Forall (fun read => substring read sup) notebook_reads.
Proof.
  split; [exact elements_iteration_order|].
  exact (greedy_scs_using_index_notebook _ elements_iteration_order).
Defined.

(** [reads.remove(x)] takes one element away. *)
Lemma list_remove_length (x : str) (reads reads' : list str) :
  list_remove x reads = Ok reads' → length reads = S (length reads').
Proof.
  revert reads'. induction reads as [|r reads IH]; intros reads'; simpl; [done|].
  case_bool_decide; [by intros [= ->]|].
  destruct (list_remove x reads) as [reads''|]; simpl; [|done].
  intros [= <-]. simpl. f_equal. by apply IH.
Qed.

(** The [while] loop of the assembly comes to an end: every merge takes one
    read off the list. *)
Lemma greedy_loop_total (fuel : nat) (order : nat → nat → gset str → list str)
    (k : Z) (round : nat) (reads : list str) (picked : result best) :
  (length reads ≤ S fuel)%nat →
  is_Some (greedy_loop (S fuel) order k round reads picked).
Proof.
  revert round reads picked.
  induction fuel as [|fuel IH]; intros round reads picked Hlen;
    cbn [greedy_loop]; (destruct picked as [[[a|] [b|] olen]|]; [| | | |done]);
    destruct (olen >? 0); try done;
    (destruct (list_remove a reads) as [reads1|] eqn:Ha; [|done]);
    (destruct (list_remove b reads1) as [reads2|] eqn:Hb; [|done]);
    apply list_remove_length in Ha; apply list_remove_length in Hb.
  - lia.
  - apply IH. rewrite length_app. simpl. lia.
Qed.

(** [greedy_scs_using_index] returns or raises on every input. *)
Lemma greedy_scs_using_index_total (order : nat → nat → gset str → list str)
    (reads : list str) (k : Z) :
  is_Some (greedy_scs_using_index order reads k).
Proof.
  unfold greedy_scs_using_index. destruct reads as [|read reads].
  - by eexists.
  - change (length (read :: reads)) with (S (length reads)).
    apply greedy_loop_total. simpl. lia.
Qed.

(** The list that the loop leaves behind is the one whose reads are joined,
    and it has not grown. *)
Lemma greedy_loop_frame (fuel : nat) (order : nat → nat → gset str → list str)
    (k : Z) (round : nat) (reads : list str) (picked : result best)
    (after : list str) (sup : str) :
  greedy_loop fuel order k round reads picked = Some (Outcome after (Ok sup)) →
  sup = concat after ∧ (length after ≤ length reads)%nat.
Proof.
  revert round reads picked.
  induction fuel as [|fuel IH]; intros round reads picked;
    cbn [greedy_loop]; (destruct picked as [[ra rb olen]|]; [|done]);
    (destruct (olen >? 0); [|by intros [= <- <-]]); [done|].
  destruct ra as [a|], rb as [b|]; try done.
  destruct (list_remove a reads) as [reads1|] eqn:Ha; [|done].
  destruct (list_remove b reads1) as [reads2|] eqn:Hb; [|done].
  intros [Hsup Hlen]%IH. split; [done|].
  apply list_remove_length in Ha. apply list_remove_length in Hb.
  rewrite length_app in Hlen. simpl in Hlen. lia.
Qed.

(** C7 (as the code has it): the assembly works on the caller's list. When
    [greedy_scs_using_index(reads, k)] returns, the returned string is the
    concatenation of the caller's list as the call leaves it; the list is
    unchanged when the first pick finds no pair with a positive overlap, and
    it has lost at least one read when the first pick finds one. *)
Theorem greedy_scs_using_index_frame (order : nat → nat → gset str → list str)
    (reads : list str) (k : Z) (after : list str) (sup : str) :
  greedy_scs_using_index order reads k = Some (Outcome after (Ok sup)) →
  sup = concat after ∧
  ∃ picked, pick_max_overlap_index (order 0%nat) reads k = Ok picked ∧
            if best_olen picked >? 0 then (length after < length reads)%nat
            else after = reads.
Proof.
  unfold greedy_scs_using_index. intros Hrun.
  split; [by eapply greedy_loop_frame|].
  destruct (pick_max_overlap_index (order 0%nat) reads k) as [[ra rb olen]|e].
  2:{ by destruct (length reads). }
  eexists. split; [done|]. simpl.
  destruct (length reads) as [|fuel] eqn:Hfuel; cbn [greedy_loop] in Hrun;
    (destruct (olen >? 0); [|by injection Hrun]); [done|].
  destruct ra as [a|], rb as [b|]; try done.
  destruct (list_remove a reads) as [reads1|] eqn:Ha; [|done].
  destruct (list_remove b reads1) as [reads2|] eqn:Hb; [|done].
  apply greedy_loop_frame in Hrun as [_ Hlen].
  apply list_remove_length in Ha. apply list_remove_length in Hb.
  rewrite length_app in Hlen. simpl in Hlen. lia.
Qed.

Lemma greedy_scs_using_index_frame_witness :
  greedy_scs_using_index (fun _ _ => elements) notebook_reads 2
  = Some (Outcome (s_ <$> ["CTT"; "TGC"; "TGG"; "GAT"; "CATT"]%string)
                  (Ok (s_ "CTTTGCTGGGATCATT"))) ∧
  (s_ "CTTTGCTGGGATCATT" = concat (s_ <$> ["CTT"; "TGC"; "TGG"; "GAT"; "CATT"]%string) ∧
   ∃ picked, pick_max_overlap_index (fun _ => elements) notebook_reads 2 = Ok picked ∧
             if best_olen picked >? 0
             then (length (s_ <$> ["CTT"; "TGC"; "TGG"; "GAT"; "CATT"]%string)
                   < length notebook_reads)%nat
             else s_ <$> ["CTT"; "TGC"; "TGG"; "GAT"; "CATT"]%string = notebook_reads).
Proof.
  assert (H : greedy_scs_using_index (fun _ _ => elements) notebook_reads 2
              = Some (Outcome (s_ <$> ["CTT"; "TGC"; "TGG"; "GAT"; "CATT"]%string)
                              (Ok (s_ "CTTTGCTGGGATCATT")))).
  { vm_compute. reflexivity. }
  split; [exact H|].
  exact (greedy_scs_using_index_frame (fun _ _ => elements) notebook_reads 2 _ _ H).
Defined.

(** C7 (as stated) fails: the call on the notebook's six reads returns, and
    leaves five reads in the caller's list, "CAT" and "ATT" replaced by
    "CATT" at the end. *)
Lemma greedy_scs_using_index_mutates :
  ∃ after sup,
    greedy_scs_using_index (fun _ _ => elements) notebook_reads 2
    = Some (Outcome after (Ok sup)) ∧
    after = s_ <$> ["CTT"; "TGC"; "TGG"; "GAT"; "CATT"]%string ∧
    after ≠ notebook_reads.
Proof.
  do 2 eexists. split; [vm_compute; reflexivity|]. split; [reflexivity|].
  intros H. apply (f_equal length) in H. vm_compute in H. discriminate.
Qed.

(** ** Approximate matching: the choice of the method *)

Lemma segment_matches_unknown (fuel : nat) (pattern text : str) (start end_ : Z)
    (method : string) :
  method ≠ "BoyerMoore"%string → method ≠ "SubStringIndex"%string →
  method ≠ "SubSeqIndex"%string →
  segment_matches fuel pattern text start end_ method
  = Some (Raise (Exception "Not a valid method!")).
Proof.
  intros H1 H2 H3. unfold segment_matches.
  by rewrite !bool_decide_eq_false_2 by done.
Qed.

Lemma length_range (lo hi : Z) : length (range lo hi) = Z.to_nat (hi - lo).
Proof. unfold range. by rewrite length_fmap, length_seq. Qed.

(** C6 (as the code has it): with a budget [n >= 0], a method outside
    {BoyerMoore, SubStringIndex, SubSeqIndex} makes [approximate_matching]
    raise the plain [Exception('Not a valid method!')] in its first round,
    for every pattern and text; nothing is returned. *)
Theorem approximate_matching_unknown_method (fuel : nat) (pattern text : str) (n : Z)
    (method : string) :
  0 ≤ n →
  method ≠ "BoyerMoore"%string → method ≠ "SubStringIndex"%string →
  method ≠ "SubSeqIndex"%string →
  approximate_matching fuel pattern text n method
  = Some (Raise (Exception "Not a valid method!")).
Proof.
  intros Hn H1 H2 H3. unfold approximate_matching.
  rewrite bool_decide_eq_false_2 by lia.
  destruct (range 0 (n + 1)) as [|i segments] eqn:Hrange.
  - apply (f_equal length) in Hrange. rewrite length_range in Hrange. simpl in Hrange. lia.
  - cbn [segments_loop]. by rewrite segment_matches_unknown.
Qed.

Lemma approximate_matching_unknown_method_witness :
  0 ≤ 2 ∧
  approximate_matching 0 (s_ "ACGT") (s_ "ACGTTTTTTT") 2 "Naive"
  = Some (Raise (Exception "Not a valid method!")).
Proof.
  split; [lia|].
  apply (approximate_matching_unknown_method 0 _ _ 2 "Naive"); [lia|done..].
Defined.

(** C6 (as stated) fails: the exception of an unknown method is of the
    class [Exception], the one every failure shares, and with a budget below
    [-1] the call does not fail at all: no segment is visited and the empty
    result is returned. *)
Lemma approximate_matching_no_UnsupportedMethod :
  (∃ e, (∀ fuel, approximate_matching fuel (s_ "ACGT") (s_ "ACGTTTTTTT") 0 "Naive"
                 = Some (Raise e)) ∧
        exn_class e = "Exception"%string ∧ exn_class e ≠ "UnsupportedMethod"%string) ∧
  (∀ fuel, approximate_matching fuel (s_ "ACGT") (s_ "ACGTTTTTTT") (-2) "Naive"
           = Some (Ok (0, ∅))).
Proof.
  split.
  - exists (Exception "Not a valid method!").
    split; [intros fuel; vm_compute; reflexivity|]. split; [reflexivity | discriminate].
  - intros fuel. vm_compute. reflexivity.
Qed.


(** ** The substring index *)

Lemma filter_ext_in {A} (P Q : A → Prop) `{∀ x, Decision (P x)} `{∀ x, Decision (Q x)}
    (l : list A) :
  (∀ x, x ∈ l → P x ↔ Q x) → filter P l = filter Q l.
Proof.
  induction l as [|x l IH]; intros Hext; [done|].
  rewrite !filter_cons. rewrite IH by (intros y Hy; apply Hext; by right).
  destruct (decide (P x)) as [HP|HP], (decide (Q x)) as [HQ|HQ]; try done.
  - destruct HQ. apply Hext; [left|done].
  - destruct HP. apply Hext; [left|done].
Qed.

Lemma naive_exact_occurrences (p t : str) : naive_exact p t = occurrences p t.
Proof.
  rewrite naive_exact_filter. apply list_filter_iff. intros i.
  apply naive_exact_chars_occurs.
Qed.

(** An occurrence, position by position. *)
Lemma occurs_at_agree (p t : str) (o : nat) :
  (o + length p ≤ length t)%nat →
  occurs_at p t o ↔ ∀ j, (j < length p)%nat → agree p t o j.
Proof.
  intros Hfit. unfold occurs_at, slice, agree.
  replace (o + length p - o)%nat with (length p) by lia. split.
  - intros Heq j Hj. rewrite <- Heq at 1.
    by rewrite lookup_take_lt, lookup_drop by done.
  - intros Hagree. apply list_eq. intros j.
    destruct (decide (j < length p)%nat).
    + by rewrite lookup_take_lt, lookup_drop, Hagree by done.
    + rewrite lookup_take_ge by lia. symmetry. apply lookup_ge_None. lia.
Qed.

(** The scan from the right stops at the rightmost mismatch. *)
Lemma first_mismatch_Some (p t : str) (i n j : nat) :
  first_mismatch p t i (reverse (seq 0 n)) = Some j →
  (j < n)%nat ∧ ¬ agree p t i j ∧ ∀ j', (j < j' < n)%nat → agree p t i j'.
Proof.
  induction n as [|n IH]; [done|].
  rewrite seq_S, reverse_snoc. cbn [first_mismatch]. simpl.
  case_bool_decide as Hn.
  - intros [= <-]. split; [lia|]. split; [done|]. lia.
  - intros (Hj & Hmis & Hsuf)%IH. split; [lia|]. split; [done|].
    intros j' Hj'. destruct (decide (j' = n)) as [->|]; [done|]. apply Hsuf. lia.
Qed.

Lemma first_mismatch_None (p t : str) (i n : nat) :
  first_mismatch p t i (reverse (seq 0 n)) = None →
  ∀ j, (j < n)%nat → agree p t i j.
Proof.
  induction n as [|n IH]; [lia|].
  rewrite seq_S, reverse_snoc. cbn [first_mismatch]. simpl.
  case_bool_decide as Hn; [done|].
  intros Hrest j Hj. destruct (decide (j = n)) as [->|]; [done|]. apply IH; [done|lia].
Qed.


(** An index filled offset by offset keeps, under every key, the offsets
    that produce the key, in the order of insertion. *)
Lemma index_fold_lookup (key_of : nat → str) (l : list nat)
    (index : gmap str (list nat)) (key : str) :
  default [] (foldl (fun index i =>
                       <[key_of i := default [] (index !! key_of i) ++ [i]]> index)
                    index l !! key)
  = default [] (index !! key) ++ filter (fun i => key_of i = key) l.
Proof.
  revert index. induction l as [|i l IH]; intros index; simpl.
  - by rewrite app_nil_r.
  - rewrite IH. destruct (decide (key_of i = key)) as [<-|Hne].
    + rewrite lookup_insert_eq, filter_cons_True by done. simpl.
      by rewrite <- app_assoc.
    + by rewrite lookup_insert_ne, filter_cons_False by done.
Qed.

Lemma take_clip {A} (l : list A) (n : nat) :
  take n l = take (Nat.min n (length l)) l.
Proof.
  destruct (decide (n ≤ length l)%nat).
  - by rewrite Nat.min_l.
  - rewrite Nat.min_r by lia. by rewrite !take_ge by lia.
Qed.

Lemma pyslice_nonneg {A} (s : list A) (lo hi : nat) :
  pyslice s (Some (Z.of_nat lo)) (Some (Z.of_nat hi)) = slice s lo hi.
Proof.
  unfold pyslice, slice, clamp. simpl.
  rewrite !(proj2 (Z.ltb_ge _ 0)) by lia. rewrite !Nat2Z.id.
  destruct (decide (lo ≤ length s)%nat).
  - rewrite (Nat.min_l lo) by done.
    rewrite (take_clip _ (hi - lo)), (take_clip _ (_ - lo)), length_drop.
    f_equal. lia.
  - rewrite (Nat.min_r lo) by lia. by rewrite !drop_ge, !take_nil by lia.
Qed.


(** ** Approximate matching: the segments and the substring index *)

(** The bounds of the segments that the loop visits. *)
Lemma segment_bounds (len n i : Z) :
  0 ≤ len → 0 ≤ i < n + 1 →
  0 ≤ i * (len / (n + 1)) ≤ Z.min ((i + 1) * (len / (n + 1))) len ∧
  Z.min ((i + 1) * (len / (n + 1))) len ≤ len.
Proof.
  intros Hlen Hi.
  assert (0 ≤ len / (n + 1)) by (apply Z.div_pos; lia).
  assert ((n + 1) * (len / (n + 1)) ≤ len) by (apply Z.mul_div_le; lia).
  nia.
Qed.

Lemma length_piece (pattern : str) (start end_ : Z) :
  0 ≤ start ≤ end_ → end_ ≤ Z.of_nat (length pattern) →
  Z.of_nat (length (pyslice pattern (Some start) (Some end_))) = end_ - start.
Proof.
  intros Hs He.
  rewrite <- (Z2Nat.id start), <- (Z2Nat.id end_) at 1 by lia.
  rewrite pyslice_nonneg. unfold slice. rewrite length_take, length_drop. lia.
Qed.



(** ** Approximate matching: the cell of Boyer-Moore *)

(** No round of the loop changes what its test reads: a loop that is
    entered is not left, however many rounds it is given. *)
Lemma bm_loop_entered (fuel : nat) (pattern : str) (p_bm : BoyerMooreObj) (text : str)
    (i : nat) (occ : list nat) :
  Z.of_nat i < Z.of_nat (length text) - Z.of_nat (length pattern) + 1 →
  bm_loop fuel pattern p_bm text i occ = None.
Proof.
  intros Htest. induction fuel as [|fuel IH]; cbn [bm_loop];
    rewrite bool_decide_eq_true_2 by done; [done|].
  by destruct (first_mismatch _ _ _ _).
Qed.

(** A loop that is not entered leaves the function at its end, where it
    returns [None]. *)
Lemma bm_loop_skipped (fuel : nat) (pattern : str) (p_bm : BoyerMooreObj) (text : str)
    (i : nat) (occ : list nat) :
  ¬ Z.of_nat i < Z.of_nat (length text) - Z.of_nat (length pattern) + 1 →
  bm_loop fuel pattern p_bm text i occ = Some PyNone.
Proof.
  intros Htest. destruct fuel; cbn [bm_loop]; by rewrite bool_decide_eq_false_2.
Qed.

(** [boyer_moore_exact_matching] returns no list: it does not return when the
    pattern fits in the text, and returns [None] when it does not fit. *)
Lemma boyer_moore_exact_matching_no_list (fuel : nat) (pattern : str)
    (p_bm : BoyerMooreObj) (text : str) :
  boyer_moore_exact_matching fuel pattern p_bm text
  = if bool_decide (length pattern ≤ length text)%nat then None else Some PyNone.
Proof.
  unfold boyer_moore_exact_matching. case_bool_decide.
  - apply bm_loop_entered. lia.
  - apply bm_loop_skipped. lia.
Qed.

Lemma range_cons (lo hi : Z) : lo < hi → range lo hi = lo :: range (lo + 1) hi.
Proof.
  intros Hlt. unfold range.
  replace (Z.to_nat (hi - lo)) with (S (Z.to_nat (hi - (lo + 1)))) by lia.
  cbn [seq fmap list_fmap]. rewrite <- fmap_S_seq, <- list_fmap_compose.
  f_equal; [lia|]. apply list_fmap_ext. intros _ i _. simpl. lia.
Qed.

(** With a budget [n >= 0] the method 'BoyerMoore' gives no result for any
    pattern and text: the first segment has [len(pattern) // (n + 1)]
    symbols; when it fits in the text the call does not return, and when it
    does not fit, [len(matches)] raises [TypeError] on the [None] that the
    matcher has returned. *)
Lemma approximate_matching_BoyerMoore_stuck (fuel : nat) (p t : str) (n : Z) :
  0 ≤ n →
  approximate_matching fuel p t n "BoyerMoore"
  = if bool_decide (Z.of_nat (length p) / (n + 1) ≤ Z.of_nat (length t)) then None
    else Some (Raise TypeError).
Proof.
  intros Hn. unfold approximate_matching. rewrite bool_decide_eq_false_2 by lia.
  rewrite range_cons by lia. cbn [segments_loop].
  destruct (segment_bounds (Z.of_nat (length p)) n 0) as [Hstart Hend]; [lia..|].
  unfold segment_matches. rewrite bool_decide_eq_true_2 by done.
  rewrite boyer_moore_exact_matching_no_list.
  pose proof (length_piece p _ _ Hstart Hend) as Hlen.
  assert (Z.of_nat (length p) / (n + 1) ≤ Z.of_nat (length p))
    by (apply Z.div_le_upper_bound; nia).
  replace (Z.min ((0 + 1) * (Z.of_nat (length p) / (n + 1))) (Z.of_nat (length p))
           - 0 * (Z.of_nat (length p) / (n + 1)))
    with (Z.of_nat (length p) / (n + 1)) in Hlen by lia.
  repeat case_bool_decide; try done; lia.
Qed.

(** C2 fails on the code: [boyer_moore_exact_matching] ends with the bare
    expression [occurrences], so [approximate_matching('AC', 'ACGT', 0,
    'BoyerMoore')] is still in the loop of the matcher after any number of
    rounds and returns no set of offsets, while the same call with
    'SubStringIndex' returns the set with the offset 0 (one hit). *)
Theorem approximate_matching_BoyerMoore_no_result :
  (∀ fuel, approximate_matching fuel (s_ "AC") (s_ "ACGT") 0 "BoyerMoore" = None) ∧
  (∀ fuel, approximate_matching fuel (s_ "AC") (s_ "ACGT") 0 "SubStringIndex"
           = Some (Ok (1, {[ 0 ]}))).
Proof.
  split; intros fuel.
  - by rewrite approximate_matching_BoyerMoore_stuck.
  - vm_compute. reflexivity.
Qed.

(** A pattern longer than the text: the matcher returns [None] and the call
    raises [TypeError], where the substring index gives the empty set. *)
Example approximate_matching_BoyerMoore_TypeError (fuel : nat) :
  approximate_matching fuel (s_ "ACGTA") (s_ "ACGT") 0 "BoyerMoore" = Some (Raise TypeError) ∧
  approximate_matching fuel (s_ "ACGTA") (s_ "ACGT") 0 "SubStringIndex" = Some (Ok (0, ∅)).
Proof.
  split; [by rewrite approximate_matching_BoyerMoore_stuck | vm_compute; reflexivity].
Qed.

(** ** Approximate matching: no true alignment is missed by the substring index *)


Lemma range_nat (a b : nat) :
  range (Z.of_nat a) (Z.of_nat b) = Z.of_nat <$> seq a (b - a).
Proof.
  unfold range. replace (Z.to_nat (Z.of_nat b - Z.of_nat a)) with (b - a)%nat by lia.
  apply list_eq. intros i. rewrite !list_lookup_fmap.
  destruct (decide (i < b - a)%nat).
  - rewrite !lookup_seq_lt by done. simpl. f_equal. lia.
  - by rewrite !lookup_seq_ge by lia.
Qed.






(** The bounds of segment [i] as natural numbers. *)
Lemma segment_nat (len n i : nat) :
  (i ≤ n)%nat →
  Z.of_nat i * (Z.of_nat len / (Z.of_nat n + 1)) = Z.of_nat (i * (len / (n + 1))) ∧
  Z.min ((Z.of_nat i + 1) * (Z.of_nat len / (Z.of_nat n + 1))) (Z.of_nat len)
  = Z.of_nat ((i + 1) * (len / (n + 1))) ∧
  ((i + 1) * (len / (n + 1)) ≤ len)%nat.
Proof.
  intros Hi.
  assert (Hseg : ((n + 1) * (len / (n + 1)) ≤ len)%nat) by apply Nat.Div0.mul_div_le.
  replace (Z.of_nat n + 1) with (Z.of_nat (n + 1)) by lia.
  rewrite <- Nat2Z.inj_div.
  assert ((i + 1) * (len / (n + 1)) ≤ len)%nat by nia.
  split; [lia|]. split; [lia|done].
Qed.


Section soundness.
Context (fuel : nat) (p t : str) (o n : nat).
Hypothesis Hfit : (o + length p ≤ length t)%nat.
Hypothesis Hham : (hamming p t o ≤ n)%nat.


End soundness.

(** ** Approximate matching: the subsequence index *)

(** The index that [approximate_matching] builds for the segment "ACGT"
    holds one key, of four symbols taken three apart, and the segment is
    looked up by its first and its last symbol only. *)
Example SubseqIndex_keys :
  sub_dct (SubseqIndex (s_ "ACGTTTTTTT") 4 3) = {[ s_ "ATTT" := [0%nat] ]} ∧
  strided (s_ "ACGT") 0 4 3 = s_ "AT".
Proof. split; vm_compute; reflexivity. Qed.

(** The substring index finds this alignment. *)
Example SubStringIndex_finds (fuel : nat) :
  approximate_matching fuel (s_ "ACGT") (s_ "ACGTTTTTTT") 0 "SubStringIndex"
  = Some (Ok (1, {[ 0 ]})).
Proof. vm_compute. reflexivity. Qed.

(** C1: with the method 'SubSeqIndex' a true alignment is missed. The
    pattern "ACGT" lies on the text "ACGTTTTTTT" at offset 0 with exactly 0
    mismatches, and [approximate_matching("ACGT", "ACGTTTTTTT", 0,
    'SubSeqIndex')] inspects no hit and returns the empty set. *)
Theorem SubSeqIndex_misses :
  (0 + length (s_ "ACGT") ≤ length (s_ "ACGTTTTTTT"))%nat ∧
  hamming (s_ "ACGT") (s_ "ACGTTTTTTT") 0 = 0%nat ∧
  (∀ fuel, approximate_matching fuel (s_ "ACGT") (s_ "ACGTTTTTTT") 0 "SubSeqIndex"
           = Some (Ok (0, ∅))).
Proof. split; [vm_compute; lia|]. split; [|intros fuel]; vm_compute; reflexivity. Qed.

Lemma length_omap_le {A B} (f : A → option B) (l : list A) :
  (length (omap f l) ≤ length l)%nat.
Proof.
  induction l as [|x l IH]; [done|]. cbn. destruct (f x); simpl; lia.
Qed.

Lemma length_omap_lt {A B} (f : A → option B) (l : list A) (x : A) :
  x ∈ l → f x = None → (length (omap f l) < length l)%nat.
Proof.
  induction l as [|y l IH]; [by intros ?%elem_of_nil|].
  intros [->|Hx]%elem_of_cons Hnone; cbn.
  - rewrite Hnone. pose proof (length_omap_le f l). simpl. lia.
  - specialize (IH Hx Hnone). destruct (f y); simpl; lia.
Qed.

Lemma length_omap_all {A B} (f : A → option B) (l : list A) :
  Forall (fun x => is_Some (f x)) l → length (omap f l) = length l.
Proof.
  induction 1 as [|x l [y Hy] _ IH]; [done|]. cbn. rewrite Hy. simpl. by rewrite IH.
Qed.

(** A key of the index has [k] symbols; a segment of [k >= 2] symbols
    sampled three apart has fewer. *)
Lemma strided_key_length (text : str) (i k : nat) :
  (i + (k * 3 - 3 + 1) ≤ length text)%nat → (1 ≤ k)%nat →
  length (strided text i (Z.of_nat k) 3) = k.
Proof.
  intros Hfit Hk. unfold strided. rewrite Nat2Z.id.
  rewrite length_omap_all; [apply length_seq|].
  apply Forall_forall. intros m Hm%elem_of_seq. apply lookup_lt_is_Some. lia.
Qed.

Lemma strided_piece_length (piece : str) :
  (2 ≤ length piece)%nat →
  (length (strided piece 0 (Z.of_nat (length piece)) 3) < length piece)%nat.
Proof.
  intros Hk. unfold strided. rewrite Nat2Z.id.
  pose proof (length_seq (length piece) 0) as Hlen.
  eapply Nat.lt_le_trans; [|apply Nat.eq_le_incl, Hlen].
  apply (length_omap_lt _ _ (length piece - 1)%nat).
  - apply elem_of_seq. lia.
  - apply lookup_ge_None. lia.
Qed.

(** The subsequence index gives no hit for a segment of two symbols or
    more, whatever the text is: this is the [total hits:  0] that the
    notebook prints for this method. *)
Lemma querySubseqIndex_empty (piece text : str) :
  (2 ≤ length piece)%nat →
  querySubseqIndex piece text (SubseqIndex text (Z.of_nat (length piece)) 3) = [].
Proof.
  intros Hk. unfold querySubseqIndex, SubseqIndex. cbn [sub_dct sub_k sub_ival].
  rewrite (index_fold_lookup (fun i => strided text i (Z.of_nat (length piece)) 3)).
  rewrite lookup_empty. simpl.
  destruct (filter _ _) as [|i hits] eqn:Hhits; [done|].
  assert (Hi : i ∈ i :: hits) by left. rewrite <- Hhits in Hi.
  apply list_elem_of_filter in Hi as [Hkey Hi%elem_of_seq].
  apply (f_equal length) in Hkey.
  rewrite strided_key_length in Hkey by lia.
  pose proof (strided_piece_length piece Hk). lia.
Qed.

(** With segments of two symbols or more, [approximate_matching] by
    'SubSeqIndex' returns the empty set for every text. *)
Lemma approximate_matching_SubSeqIndex_empty (fuel : nat) (p t : str) (n : nat) :
  (2 ≤ length p / (n + 1))%nat →
  approximate_matching fuel p t (Z.of_nat n) "SubSeqIndex" = Some (Ok (0, ∅)).
Proof.
  intros Hseg. unfold approximate_matching. rewrite bool_decide_eq_false_2 by lia.
  replace (range 0 (Z.of_nat n + 1)) with (range (Z.of_nat 0) (Z.of_nat (n + 1)))
    by (f_equal; lia).
  rewrite range_nat.
  assert (Hall : Forall (fun i => i ≤ n)%nat (seq 0 (n + 1 - 0))).
  { apply Forall_forall. intros i Hi%elem_of_seq. lia. }
  induction Hall as [|i segments Hi _ IH]; [done|].
  cbn [fmap list_fmap segments_loop].
  destruct (segment_nat (length p) n i Hi) as (-> & -> & Hend).
  unfold segment_matches. rewrite !bool_decide_eq_false_2 by done.
  rewrite bool_decide_eq_true_2 by done. cbn [run_bind as_list].
  rewrite pyslice_nonneg.
  assert (Hlen : length (slice p (i * (length p / (n + 1)))
                                 ((i + 1) * (length p / (n + 1))))
                 = (length p / (n + 1))%nat).
  { unfold slice. rewrite length_take, length_drop. lia. }
  replace (Z.of_nat ((i + 1) * (length p / (n + 1))) - Z.of_nat (i * (length p / (n + 1))))
    with (Z.of_nat (length (slice p (i * (length p / (n + 1)))
                                    ((i + 1) * (length p / (n + 1)))))) by lia.
  rewrite querySubseqIndex_empty by lia. exact IH.
Qed.

(** * Further properties of the notebook's functions *)

(** ** Naive matching: what is reported *)

(** X1: [naive_exact] reports the occurrences, all of them. An offset [o]
    is in [naive_exact(p, t)] exactly when the pattern fits there,
    [o + len(p) <= len(t)], and [t[o:o+len(p)] == p]. *)
Theorem naive_exact_offsets (p t : str) (o : nat) :
  o ∈ naive_exact p t ↔
  (o + length p ≤ length t)%nat ∧ slice t o (o + length p) = p.
Proof. apply elem_of_naive_exact. Qed.

Lemma filter_seq_ascending (P : nat → Prop) `{∀ x, Decision (P x)} (lo n : nat) :
  StronglySorted lt (filter P (seq lo n)).
Proof.
  revert lo. induction n as [|n IH]; intros lo; [constructor|].
  cbn [seq]. rewrite filter_cons. destruct (decide (P lo)); [|apply IH].
  constructor; [apply IH|]. apply Forall_forall.
  intros x [_ Hx%elem_of_seq]%list_elem_of_filter. lia.
Qed.

(** X2: the offsets of [naive_exact] come in strictly ascending order, so
    that none is reported twice. *)
Theorem naive_exact_ascending (p t : str) :
  StronglySorted lt (naive_exact p t).
Proof. rewrite naive_exact_occurrences. apply filter_seq_ascending. Qed.

(** X3: the empty pattern matches at every offset of the text, the one
    behind its last character included: [naive_exact('', t)] is
    [[0, 1, .., len(t)]]. *)
Theorem naive_exact_empty_pattern (t : str) :
  naive_exact [] t = seq 0 (length t + 1).
Proof.
  rewrite naive_exact_filter. unfold alignments. simpl. rewrite Nat.sub_0_r.
  induction (seq 0 (length t + 1)) as [|i l IH]; [done|].
  rewrite filter_cons_True by done. by rewrite IH.
Qed.

(** X4: a pattern longer than the text gives no offset (the range of
    alignments is empty), and no index error. *)
Theorem naive_exact_long_pattern (p t : str) :
  (length t < length p)%nat → naive_exact p t = [].
Proof.
  intros Hlen. unfold naive_exact, alignments.
  by replace (length t + 1 - length p)%nat with 0%nat by lia.
Qed.

Lemma naive_exact_long_pattern_witness :
  (length (s_ "AC") < length (s_ "ACGT"))%nat ∧ naive_exact (s_ "ACGT") (s_ "AC") = [].
Proof.
  assert (H : (length (s_ "AC") < length (s_ "ACGT"))%nat) by (vm_compute; lia).
  split; [exact H | exact (naive_exact_long_pattern _ _ H)].
Defined.

(** The inner loop of [naive_n_mm] leaves [match] set when it meets no
    mismatch, or when the count stays within the budget. *)
Lemma naive_n_mm_chars_true (p t : str) (n : Z) (i : nat) (js : list nat) (mm : Z) :
  naive_n_mm_chars p t n i js mm = true ↔
  filter (fun j => ¬ agree p t i j) js = [] ∨
  mm + Z.of_nat (length (filter (fun j => ¬ agree p t i j) js)) ≤ n.
Proof.
  revert mm. induction js as [|j js IH]; intros mm; simpl.
  - split; [by left | done].
  - rewrite filter_cons. destruct (decide (¬ agree p t i j)) as [Hmis|Hag].
    + rewrite bool_decide_eq_true_2 by (intros Heq; by apply Hmis).
      destruct (Z.gtb_spec (mm + 1) n) as [Hgt|Hle].
      * split; [done|]. intros [Hnil|Hle]; [done|]. cbn [length] in Hle. lia.
      * rewrite IH. split.
        -- intros [Hnil|Hle']; right; [rewrite Hnil|]; cbn [length]; lia.
        -- intros [Hnil|Hle']; [done|]. right. cbn [length] in Hle'. lia.
    + apply dec_stable in Hag. rewrite bool_decide_eq_false_2 by (intros Hne; by apply Hne).
      apply IH.
Qed.

Lemma elem_of_naive_n_mm (p t : str) (n : Z) (o : nat) :
  o ∈ naive_n_mm p t n ↔
  (o + length p ≤ length t)%nat ∧
  (hamming p t o = 0%nat ∨ Z.of_nat (hamming p t o) ≤ n).
Proof.
  unfold naive_n_mm. rewrite foldl_collect, app_nil_l, list_elem_of_filter.
  rewrite elem_of_alignments, naive_n_mm_chars_true. unfold hamming. split.
  - intros [[Hnil|Hle] Hfit]; (split; [done|]); [left; by rewrite Hnil | by right].
  - intros [Hfit [H0|Hle]]; (split; [|done]);
      [left; by apply length_zero_iff_nil | by right].
Qed.

(** X5: what [naive_n_mm] reports. An offset [o] is in [naive_n_mm(p, t, n)]
    exactly when the pattern fits there and differs from the text in no
    position or in at most [n] positions; the first case is what a negative
    [n] leaves. *)
Theorem naive_n_mm_offsets (p t : str) (n : Z) (o : nat) :
  o ∈ naive_n_mm p t n ↔
  (o + length p ≤ length t)%nat ∧
  (hamming p t o = 0%nat ∨ Z.of_nat (hamming p t o) ≤ n).
Proof. apply elem_of_naive_n_mm. Qed.

(** No mismatch is an occurrence. *)
Lemma hamming_zero (p t : str) (o : nat) :
  (o + length p ≤ length t)%nat →
  hamming p t o = 0%nat ↔ occurs_at p t o.
Proof.
  intros Hfit. rewrite occurs_at_agree by done. unfold hamming.
  rewrite length_zero_iff_nil. split.
  - intros Hnil j Hj. apply dec_stable. intros Hmis.
    apply (filter_nil_not_elem_of _ _ j Hnil Hmis), elem_of_seq. lia.
  - intros Hall. destruct (filter _ _) as [|j l] eqn:Hl; [done|].
    assert (Hj : j ∈ j :: l) by left. rewrite <- Hl in Hj.
    apply list_elem_of_filter in Hj as [Hmis Hj%elem_of_seq].
    destruct Hmis. apply Hall. lia.
Qed.

Lemma hamming_le_length (p t : str) (o : nat) : (hamming p t o ≤ length p)%nat.
Proof.
  unfold hamming. etrans; [apply length_filter|]. by rewrite length_seq.
Qed.

(** X6: a negative budget is a budget of zero. For every [n <= 0],
    [naive_n_mm(p, t, n)] is [naive_exact(p, t)]. *)
Theorem naive_n_mm_nonpositive (p t : str) (n : Z) :
  n ≤ 0 → naive_n_mm p t n = naive_exact p t.
Proof.
  intros Hn. unfold naive_n_mm. rewrite foldl_collect, app_nil_l, naive_exact_occurrences.
  apply filter_ext_in. intros o Ho%elem_of_alignments.
  rewrite naive_n_mm_chars_true, <- hamming_zero by done. unfold hamming.
  rewrite length_zero_iff_nil. split; [|by left].
  intros [Hnil|Hle]; [done|].
  destruct (filter _ _); [done | cbn [length] in Hle; lia].
Qed.

Lemma naive_n_mm_nonpositive_witness :
  -3 ≤ 0 ∧ naive_n_mm (s_ "AG") (s_ "AGCTTAGATAG") (-3) = naive_exact (s_ "AG") (s_ "AGCTTAGATAG").
Proof.
  split; [lia|]. apply (naive_n_mm_nonpositive _ _ (-3)). lia.
Defined.

(** X7: a larger budget loses no offset: for [n <= n'], every offset of
    [naive_n_mm(p, t, n)] is in [naive_n_mm(p, t, n')]. *)
Theorem naive_n_mm_monotone (p t : str) (n n' : Z) (o : nat) :
  n ≤ n' → o ∈ naive_n_mm p t n → o ∈ naive_n_mm p t n'.
Proof.
  intros Hn. rewrite !elem_of_naive_n_mm. intros [Hfit [H0|Hle]]; (split; [done|]).
  - by left.
  - right. lia.
Qed.

Lemma naive_n_mm_monotone_witness :
  1 ≤ 2 ∧ 5%nat ∈ naive_n_mm (s_ "AGT") (s_ "AGCTTAGATAG") 1 ∧
  5%nat ∈ naive_n_mm (s_ "AGT") (s_ "AGCTTAGATAG") 2.
Proof.
  assert (H : 5%nat ∈ naive_n_mm (s_ "AGT") (s_ "AGCTTAGATAG") 1).
  { vm_compute. set_solver. }
  split; [lia|]. split; [exact H|].
  apply (naive_n_mm_monotone _ _ 1 2 5%nat); [lia | exact H].
Defined.

(** X8: with a budget of [len(p)] mismatches or more every alignment is
    reported: [naive_n_mm(p, t, n)] is [[0, .., len(t) - len(p)]]. *)
Theorem naive_n_mm_large_budget (p t : str) (n : Z) :
  Z.of_nat (length p) ≤ n → naive_n_mm p t n = seq 0 (length t + 1 - length p).
Proof.
  intros Hn. unfold naive_n_mm. rewrite foldl_collect, app_nil_l.
  fold (alignments p t).
  induction (alignments p t) as [|i l IH]; [done|].
  rewrite filter_cons_True, IH; [done|].
  apply naive_n_mm_chars_true. right. pose proof (hamming_le_length p t i).
  unfold hamming in *. lia.
Qed.

Lemma naive_n_mm_large_budget_witness :
  Z.of_nat (length (s_ "AGT")) ≤ 3 ∧
  naive_n_mm (s_ "AGT") (s_ "AGCTT") 3 = seq 0 (length (s_ "AGCTT") + 1 - length (s_ "AGT")).
Proof.
  assert (H : Z.of_nat (length (s_ "AGT")) ≤ 3) by (vm_compute; discriminate).
  split; [exact H | exact (naive_n_mm_large_budget _ _ 3 H)].
Defined.

(** ** The reverse complement *)

Lemma complement_decides (c : ascii) :
  match complement c with
  | Ok c' => bool_decide (is_base c) = true ∧ bool_decide (is_base c') = true
  | Raise e => e = KeyError ∧ bool_decide (is_base c) = false
  end.
Proof.
  destruct c as [[] [] [] [] [] [] [] []]; vm_compute; by split.
Qed.

Lemma complement_Raise (c : ascii) (e : PyExn) :
  complement c = Raise e ↔ e = KeyError ∧ ¬ is_base c.
Proof.
  pose proof (complement_decides c) as Hc.
  destruct (complement c) as [c'|e'].
  - destruct Hc as [Hc%bool_decide_eq_true _]. split; [done | by intros [_ ?]].
  - destruct Hc as [-> Hc%bool_decide_eq_false]. split; [by intros [= <-]|by intros [-> _]].
Qed.

Lemma reverseComplement_loop_Raise (s t : str) (e : PyExn) :
  reverseComplement_loop s t = Raise e ↔ e = KeyError ∧ ∃ c, c ∈ s ∧ ¬ is_base c.
Proof.
  revert t. induction s as [|c s IH]; intros t; simpl.
  - split; [done|]. intros [_ (c & Hc%elem_of_nil & _)]. done.
  - destruct (complement c) as [c'|e'] eqn:Hc; simpl.
    + rewrite IH. split; intros [-> (d & Hd & Hbad)]; (split; [done|]).
      * exists d. split; [by right | done].
      * exists d. split; [|done]. apply elem_of_cons in Hd as [->|Hd]; [|done].
        pose proof (complement_decides c) as Hdec. rewrite Hc in Hdec.
        destruct Hdec as [Hdec%bool_decide_eq_true _]. done.
    + apply complement_Raise in Hc as [-> Hbad]. split; [intros [= <-]|by intros [-> _]].
      split; [done|]. exists c. split; [left | done].
Qed.

(** X9: [reverseComplement] fails exactly on a symbol outside the
    dictionary: [reverseComplement(s)] raises [KeyError] if and only if [s]
    holds a character that is none of A, C, G, T, N (a lower-case base
    included), and it raises nothing else. *)
Theorem reverseComplement_KeyError (s : str) (e : PyExn) :
  reverseComplement s = Raise e ↔ e = KeyError ∧ ∃ c, c ∈ s ∧ ¬ is_base c.
Proof. apply reverseComplement_loop_Raise. Qed.

(** The accumulator of the loop is only prepended to. *)
Lemma reverseComplement_loop_acc (s t : str) :
  reverseComplement_loop s t
  = (r <~ reverseComplement_loop s [] ;; Ok (r ++ t)).
Proof.
  revert t. induction s as [|c s IH]; intros t; simpl; [done|].
  destruct (complement c) as [c'|e]; simpl; [|done].
  rewrite (IH (c' :: t)), (IH [c']).
  destruct (reverseComplement_loop s []) as [r|e]; simpl; [|done].
  by rewrite <- app_assoc.
Qed.

Lemma reverseComplement_length (s rc : str) :
  reverseComplement s = Ok rc → length rc = length s.
Proof.
  unfold reverseComplement. revert rc. induction s as [|c s IH]; intros rc; simpl.
  - by intros [= <-].
  - destruct (complement c) as [c'|e]; simpl; [|done].
    rewrite reverseComplement_loop_acc.
    destruct (reverseComplement_loop s []) as [r|e] eqn:Hr; simpl; [|done].
    intros [= <-]. rewrite length_app, (IH r) by done. simpl. lia.
Qed.

(** X10: the reverse complement of a concatenation is the concatenation of
    the reverse complements in the opposite order:
    [reverseComplement(a + b) == reverseComplement(b) + reverseComplement(a)],
    and it has as many characters as its argument. *)
Theorem reverseComplement_concat (a b ra rb : str) :
  reverseComplement a = Ok ra → reverseComplement b = Ok rb →
  reverseComplement (a ++ b) = Ok (rb ++ ra) ∧
  length (rb ++ ra) = length (a ++ b).
Proof.
  intros Ha Hb. split.
  - unfold reverseComplement in *.
    rewrite (reverseComplement_loop_app a b [] ra Ha).
    by rewrite reverseComplement_loop_acc, Hb.
  - rewrite !length_app, (reverseComplement_length a ra), (reverseComplement_length b rb) by done.
    lia.
Qed.

Lemma reverseComplement_concat_witness :
  reverseComplement (s_ "AAC") = Ok (s_ "GTT") ∧
  reverseComplement (s_ "GN") = Ok (s_ "NC") ∧
  reverseComplement (s_ "AAC" ++ s_ "GN") = Ok (s_ "NC" ++ s_ "GTT") ∧
  length (s_ "NC" ++ s_ "GTT") = length (s_ "AAC" ++ s_ "GN").
Proof.
  assert (Ha : reverseComplement (s_ "AAC") = Ok (s_ "GTT")) by (vm_compute; reflexivity).
  assert (Hb : reverseComplement (s_ "GN") = Ok (s_ "NC")) by (vm_compute; reflexivity).
  split; [exact Ha|]. split; [exact Hb|].
  exact (reverseComplement_concat _ _ _ _ Ha Hb).
Defined.

(** ** Matching either strand *)

Lemma StronglySorted_lt_NoDup (l : list nat) : StronglySorted lt l → NoDup l.
Proof.
  induction 1 as [|x l _ IH Hx]; constructor; [|done].
  intros Hin. eapply Forall_forall in Hx; [|done]. lia.
Qed.

Lemma naive_exact_NoDup (p t : str) : NoDup (naive_exact p t).
Proof.
  apply StronglySorted_lt_NoDup. rewrite naive_exact_occurrences.
  apply filter_seq_ascending.
Qed.

(** X11: [naive_exact_rc] on a valid pattern. For a pattern over
    {A, C, G, T, N} the call returns a list that holds an offset exactly
    when the pattern or its reverse complement occurs there, and no offset
    twice. *)
Theorem naive_exact_rc_offsets (p t : str) :
  Forall is_base p →
  ∃ p_rc occ,
    reverseComplement p = Ok p_rc ∧ naive_exact_rc p t = Ok occ ∧
    NoDup occ ∧
    ∀ o, o ∈ occ ↔
         (o + length p ≤ length t)%nat ∧
         (slice t o (o + length p) = p ∨ slice t o (o + length p) = p_rc).
Proof.
  intros Hp. destruct (reverseComplement_loop_spec p [] Hp) as (cs & Hrc & _).
  rewrite app_nil_r in Hrc. fold (reverseComplement p) in Hrc.
  set (p_rc := reverse cs) in *.
  pose proof (reverseComplement_length p p_rc Hrc) as Hlen.
  exists p_rc. unfold naive_exact_rc. rewrite Hrc. simpl.
  case_bool_decide as Hne.
  - eexists. split; [done|]. split; [done|]. split.
    + apply NoDup_app. split; [apply naive_exact_NoDup|].
      split; [|apply naive_exact_NoDup].
      intros o [_ H1]%elem_of_naive_exact [_ H2]%elem_of_naive_exact.
      unfold occurs_at in *. rewrite Hlen in H2. congruence.
    + intros o. rewrite elem_of_app, !elem_of_naive_exact. unfold occurs_at.
      rewrite Hlen. tauto.
  - eexists. split; [done|]. split; [done|]. split.
    + apply naive_exact_NoDup.
    + intros o. rewrite elem_of_naive_exact. unfold occurs_at. rewrite <- Hne. tauto.
Qed.

Lemma naive_exact_rc_offsets_witness :
  Forall is_base (s_ "AAC") ∧
  ∃ p_rc occ,
    reverseComplement (s_ "AAC") = Ok p_rc ∧
    naive_exact_rc (s_ "AAC") (s_ "AACGTTAAC") = Ok occ ∧
    NoDup occ ∧
    ∀ o, o ∈ occ ↔
         (o + length (s_ "AAC") ≤ length (s_ "AACGTTAAC"))%nat ∧
         (slice (s_ "AACGTTAAC") o (o + length (s_ "AAC")) = s_ "AAC" ∨
          slice (s_ "AACGTTAAC") o (o + length (s_ "AAC")) = p_rc).
Proof.
  assert (H : Forall is_base (s_ "AAC")).
  { unfold is_base. cbn. repeat constructor; set_solver. }
  split; [exact H | exact (naive_exact_rc_offsets _ (s_ "AACGTTAAC") H)].
Defined.

(** X12: [naive_exact_rc] fails on an invalid pattern, also when the
    pattern itself occurs in the text: it raises [KeyError] if and only if
    the pattern holds a character outside {A, C, G, T, N}. *)
Theorem naive_exact_rc_KeyError (p t : str) (e : PyExn) :
  naive_exact_rc p t = Raise e ↔ e = KeyError ∧ ∃ c, c ∈ p ∧ ¬ is_base c.
Proof.
  rewrite <- (reverseComplement_loop_Raise p []). fold (reverseComplement p).
  unfold naive_exact_rc.
  destruct (reverseComplement p) as [p_rc|e']; simpl.
  - case_bool_decide; split; intros [=].
  - split; intros [= ->]; done.
Qed.

(** ** overlap: what the returned length means *)

Lemma overlap_loop_suffix (fuel : nat) (a b : str) (min_length : Z) (start : nat) (v : Z) :
  overlap_loop fuel a b min_length start = Some v →
  ∃ s, (s ≤ length a)%nat ∧ v = Z.of_nat (length a - s) ∧ suffix_overlap a b s.
Proof.
  revert start. induction fuel as [|fuel IH]; intros start; [done|]. simpl.
  destruct (find a _ start) as [s|] eqn:Hfind.
  - apply find_Some in Hfind as (_ & Hfit & _).
    destruct (startswith b _) eqn:Hsw; [|apply IH].
    intros [= <-]. exists s. split; [lia|]. split; [lia|].
    unfold startswith in Hsw. apply bool_decide_eq_true in Hsw.
    rewrite pyslice_suffix, length_drop in Hsw. done.
  - intros [= <-]. exists (length a). split; [done|]. split; [lia|].
    unfold suffix_overlap. by rewrite Nat.sub_diag, take_0, drop_ge.
Qed.

Lemma overlap_suffix (a b : str) (min_length : Z) :
  ∃ v : nat, overlap a b min_length = Z.of_nat v ∧
             (v ≤ length a)%nat ∧ (v ≤ length b)%nat ∧
             drop (length a - v) a = take v b.
Proof.
  destruct (overlap_loop_suffix _ _ _ _ _ _ (overlap_returns a b min_length))
    as (s & Hs & Hv & Hov).
  exists (length a - s)%nat. split; [done|]. split; [lia|].
  unfold suffix_overlap in Hov.
  replace (length a - (length a - s))%nat with s by lia.
  split; [|done]. apply (f_equal length) in Hov.
  rewrite length_take, length_drop in Hov. lia.
Qed.


(** X14: for a [min_length] between [0] and [len(b)], [overlap] returns the
    length of the longest suffix of [a] that is a prefix of [b] when that
    length is at least [min_length], and [0] when it is not. *)
Theorem overlap_longest (a b : str) (min_length : Z) :
  0 ≤ min_length ≤ Z.of_nat (length b) →
  overlap a b min_length
  = if min_length <=? Z.of_nat (longest_overlap a b)
    then Z.of_nat (longest_overlap a b) else 0.
Proof. apply overlap_in_range. Qed.

Lemma overlap_longest_witness :
  0 ≤ 2 ≤ Z.of_nat (length (s_ "CAATCCC")) ∧
  overlap (s_ "ATGCAAT") (s_ "CAATCCC") 2
  = if 2 <=? Z.of_nat (longest_overlap (s_ "ATGCAAT") (s_ "CAATCCC"))
    then Z.of_nat (longest_overlap (s_ "ATGCAAT") (s_ "CAATCCC")) else 0.
Proof.
  assert (H : 0 ≤ 2 ≤ Z.of_nat (length (s_ "CAATCCC"))) by (vm_compute; split; discriminate).
  split; [exact H | exact (overlap_longest _ _ 2 H)].
Defined.

(** ** Approximate matching: what is returned *)

(** X15: a budget below [-1] is not refused: [range(n + 1)] is empty, no
    segment is searched, the method is not even looked at, and
    [approximate_matching] prints 0 hits and returns the empty list. *)
Theorem approximate_matching_negative_budget (fuel : nat) (p t : str) (n : Z)
    (method : string) :
  n < -1 → approximate_matching fuel p t n method = Some (Ok (0, ∅)).
Proof.
  intros Hn. unfold approximate_matching. rewrite bool_decide_eq_false_2 by lia.
  unfold range. by replace (Z.to_nat (n + 1 - 0)) with 0%nat by lia.
Qed.

Lemma approximate_matching_negative_budget_witness :
  -2 < -1 ∧
  approximate_matching 0 (s_ "ACGT") (s_ "ACGTTTTTTT") (-2) "Naive" = Some (Ok (0, ∅)).
Proof.
  split; [lia|]. apply (approximate_matching_negative_budget 0 _ _ (-2)). lia.
Defined.












(** X18: with a budget [n >= 0] the method 'BoyerMoore' never yields a set
    of offsets, whatever the pattern and the text are: the loop of
    [boyer_moore_exact_matching] advances nothing, so the call is still
    running after any number of rounds when the first segment fits in the
    text, and ends in [TypeError] on the [None] of the matcher when it does
    not fit. *)
Theorem approximate_matching_BoyerMoore_no_offsets (fuel : nat) (p t : str) (n : Z)
    (r : Z * gset Z) :
  0 ≤ n → approximate_matching fuel p t n "BoyerMoore" ≠ Some (Ok r).
Proof.
  intros Hn. rewrite approximate_matching_BoyerMoore_stuck by done.
  by case_bool_decide.
Qed.

Lemma approximate_matching_BoyerMoore_no_offsets_witness :
  0 ≤ 0 ∧
  approximate_matching 5 (s_ "AC") (s_ "ACGT") 0 "BoyerMoore" ≠ Some (Ok (1, {[ 0 ]})).
Proof.
  split; [lia|]. apply (approximate_matching_BoyerMoore_no_offsets 5 _ _ 0). lia.
Defined.

(** ** Assembly: values of the brute-force functions *)

Example scs_ex :
  scs (s_ <$> ["ACGGTACGAGC"; "GAGCTTCGGA"; "GACACGG"]%string)
  = Ok [s_ "ACGGTACGAGCTTCGGACACGG"; s_ "GAGCTTCGGACACGGTACGAGC";
        s_ "GACACGGTACGAGCTTCGGA"].
Proof. vm_compute. reflexivity. Qed.

Example greedy_scs_ex :
  outcome_of <$> greedy_scs (s_ <$> ["ABC"; "BCA"; "CAB"]%string) 2
  = Some (Outcome [s_ "CABCA"] (Ok (s_ "CABCA"))).
Proof. vm_compute. reflexivity. Qed.

Example permutations2_ex : permutations2 [1; 2; 3]%nat
  = [(1, 2); (1, 3); (2, 1); (2, 3); (3, 1); (3, 2)]%nat.
Proof. reflexivity. Qed.

Example itertools_permutations_ex : itertools_permutations [1; 2; 3]%nat
  = [[1; 2; 3]; [1; 3; 2]; [2; 1; 3]; [2; 3; 1]; [3; 1; 2]; [3; 2; 1]]%nat.
Proof. reflexivity. Qed.

(** ** Assembly: the merged reads *)

Lemma substring_app (r sup : str) :
  substring r sup ↔ ∃ pre post, sup = pre ++ r ++ post.
Proof.
  unfold substring, occurs_at, slice. split.
  - intros (o & Hfit & Hocc).
    replace (o + length r - o)%nat with (length r) in Hocc by lia.
    exists (take o sup), (drop (length r) (drop o sup)).
    assert (Heq : r ++ drop (length r) (drop o sup) = drop o sup).
    { rewrite <- Hocc at 1. apply take_drop. }
    by rewrite Heq, take_drop.
  - intros (pre & post & ->). exists (length pre). split.
    + rewrite !length_app. lia.
    + replace (length pre + length r - length pre)%nat with (length r) by lia.
      by rewrite drop_app_length, take_app_length.
Qed.

Lemma substring_refl (r : str) : substring r r.
Proof. apply substring_app. exists [], []. by rewrite app_nil_r. Qed.

Lemma substring_trans (r e sup : str) :
  substring r e → substring e sup → substring r sup.
Proof.
  rewrite !substring_app. intros (p1 & q1 & ->) (p2 & q2 & ->).
  exists (p2 ++ p1), (q1 ++ q2). by rewrite <- !app_assoc.
Qed.

Lemma substring_concat (e : str) (pool : list str) :
  e ∈ pool → substring e (concat pool).
Proof.
  intros (l1 & l2 & ->)%list_elem_of_split. apply substring_app.
  exists (concat l1), (concat l2). by rewrite concat_app.
Qed.

(** The read that a merge appends holds both merged reads. *)
Lemma merge_contains (a b : str) (k : Z) :
  substring a (a ++ pyslice b (Some (overlap a b k)) None) ∧
  substring b (a ++ pyslice b (Some (overlap a b k)) None) ∧
  (length a ≤ length (a ++ pyslice b (Some (overlap a b k)) None) ≤ length a + length b)%nat.
Proof.
  destruct (overlap_suffix a b k) as (v & -> & Hva & Hvb & Hov).
  rewrite pyslice_suffix. split; [|split].
  - apply substring_app. exists [], (drop v b). done.
  - apply substring_app. exists (take (length a - v) a), [].
    rewrite app_nil_r. rewrite <- (take_drop (length a - v) a) at 1.
    rewrite Hov, <- app_assoc. by rewrite take_drop.
  - rewrite length_app, length_drop. lia.
Qed.

Lemma list_remove_elem_of (x : str) (reads reads' : list str) :
  list_remove x reads = Ok reads' →
  x ∈ reads ∧ reads ≡ₚ x :: reads'.
Proof.
  revert reads'. induction reads as [|r reads IH]; intros reads'; simpl; [done|].
  case_bool_decide as Hr.
  - intros [= <-]. subst r. split; [left | done].
  - destruct (list_remove x reads) as [reads''|] eqn:Hrem; simpl; [|done].
    intros [= <-]. destruct (IH _ eq_refl) as [Hin Hperm].
    split; [by right|]. rewrite Hperm. apply Permutation_swap.
Qed.

Lemma list_remove_Ok (x : str) (reads : list str) :
  x ∈ reads → ∃ reads', list_remove x reads = Ok reads'.
Proof.
  induction reads as [|r reads IH]; [by intros ?%elem_of_nil|].
  intros Hin. simpl. case_bool_decide as Hr; [by eexists|].
  apply elem_of_cons in Hin as [->|Hin]; [done|].
  destruct (IH Hin) as [reads' ->]. by eexists.
Qed.

(** A merge keeps every read covered, and the pool from growing in total
    length. *)
Lemma merge_step (reads0 reads reads1 reads2 : list str) (a b : str) (k : Z) :
  list_remove a reads = Ok reads1 → list_remove b reads1 = Ok reads2 →
  covered reads0 reads →
  covered reads0 (reads2 ++ [a ++ pyslice b (Some (overlap a b k)) None]) ∧
  (length (concat (reads2 ++ [a ++ pyslice b (Some (overlap a b k)) None]))
   ≤ length (concat reads))%nat.
Proof.
  intros [_ Ha]%list_remove_elem_of [_ Hb]%list_remove_elem_of Hcov.
  destruct (merge_contains a b k) as (Hsa & Hsb & Hlen). split.
  - intros r (e & He & Hre)%Hcov. rewrite Ha, Hb in He.
    apply elem_of_cons in He as [->|He]; [|apply elem_of_cons in He as [->|He]].
    + eexists. split; [apply elem_of_app; right; left|]. by eapply substring_trans.
    + eexists. split; [apply elem_of_app; right; left|]. by eapply substring_trans.
    + exists e. split; [apply elem_of_app; by left | done].
  - assert (Hsum : ∀ l l' : list str, l ≡ₚ l' → length (concat l) = length (concat l')).
    { induction 1; simpl; rewrite ?length_app in *; lia. }
    rewrite (Hsum reads (a :: b :: reads2)) by (by rewrite Ha, Hb).
    rewrite concat_app, length_app. simpl. rewrite app_nil_r, !length_app.
    rewrite length_app in Hlen. lia.
Qed.

Lemma pick_matched_consistent (read : str) (k : Z) (matched : list str) (st : best) :
  consistent k st → consistent k (pick_matched read k matched st).
Proof.
  unfold pick_matched. revert st. induction matched as [|x l IH]; intros st Hst; [done|].
  simpl. apply IH. case_bool_decide; [|done].
  destruct (Z.gtb_spec (overlap read x k) (best_olen st)); [|done].
  destruct Hst as [Hpos _]. split; simpl; [lia|]. intros _. by exists read, x.
Qed.

Lemma pick_reads_consistent (ord : nat → gset str → list str)
    (kmer_dct : gmap str (gset str)) (k : Z) (pos : nat) (reads : list str) (st st' : best) :
  consistent k st → pick_reads ord kmer_dct k pos reads st = Ok st' → consistent k st'.
Proof.
  revert pos st. induction reads as [|read reads IH]; intros pos st Hst; simpl.
  - by intros [= <-].
  - destruct (kmer_dct !! _) as [matched|]; [|done].
    apply IH. by apply pick_matched_consistent.
Qed.

Lemma pick_max_overlap_index_consistent (ord : nat → gset str → list str)
    (reads : list str) (k : Z) (st : best) :
  pick_max_overlap_index ord reads k = Ok st → consistent k st.
Proof.
  apply pick_reads_consistent. split; simpl; [done | lia].
Qed.

Lemma greedy_loop_covers (fuel : nat) (order : nat → nat → gset str → list str)
    (k : Z) (round : nat) (reads0 reads : list str) (picked : result best)
    (after : list str) (sup : str) :
  (∀ st, picked = Ok st → consistent k st) →
  covered reads0 reads →
  greedy_loop fuel order k round reads picked = Some (Outcome after (Ok sup)) →
  covered reads0 after ∧ (length sup ≤ length (concat reads))%nat.
Proof.
  revert round reads picked.
  induction fuel as [|fuel IH]; intros round reads picked Hpick Hcov;
    cbn [greedy_loop]; (destruct picked as [[ra rb olen]|]; [|done]);
    (destruct (Z.gtb_spec olen 0); [|by intros [= <- <-]]); [done|].
  destruct (Hpick _ eq_refl) as [_ (a & b & Ha & Hb & Holen)]; [done|].
  simpl in Ha, Hb, Holen. subst ra rb olen.
  destruct (list_remove a reads) as [reads1|] eqn:Hr1; [|done].
  destruct (list_remove b reads1) as [reads2|] eqn:Hr2; [|done].
  destruct (merge_step reads0 reads reads1 reads2 a b k Hr1 Hr2 Hcov) as [Hcov' Hlen].
  intros [Hafter Hsup]%IH; [split; [done|lia]| |done].
  intros st. apply pick_max_overlap_index_consistent.
Qed.

Lemma covered_refl (reads : list str) : covered reads reads.
Proof. intros r Hr. exists r. split; [done | apply substring_refl]. Qed.

(** A string that the indexed assembly returns holds every read and is
    not longer than the reads together. *)
Lemma greedy_scs_using_index_covers (order : nat → nat → gset str → list str)
    (reads : list str) (k : Z) (after : list str) (sup : str) :
  greedy_scs_using_index order reads k = Some (Outcome after (Ok sup)) →
  (∀ read, read ∈ reads → substring read sup) ∧
  (length sup ≤ length (concat reads))%nat.
Proof.
  intros Hrun. pose proof Hrun as Hjoin.
  apply greedy_loop_frame in Hjoin as [-> _].
  eapply greedy_loop_covers in Hrun as [Hcov Hlen];
    [|intros st; apply pick_max_overlap_index_consistent|apply covered_refl].
  split; [|done]. intros read Hread.
  destruct (Hcov read Hread) as (e & He & Hsub).
  eapply substring_trans; [done | by apply substring_concat].
Qed.

(** X19: the indexed assembly ends, and a string it returns is a common
    superstring. For every list of reads, every [k] and every order in which
    the sets of the index are run through, [greedy_scs_using_index(reads, k)]
    returns or raises; when it returns, every read of the input list occurs
    in the returned string, which is not longer than the concatenation of
    the reads. *)
Theorem greedy_scs_using_index_superstring (order : nat → nat → gset str → list str)
    (reads : list str) (k : Z) :
  ∃ after r,
    greedy_scs_using_index order reads k = Some (Outcome after r) ∧
    ∀ sup, r = Ok sup →
           (∀ read, read ∈ reads → substring read sup) ∧
           (length sup ≤ length (concat reads))%nat.
Proof.
  destruct (greedy_scs_using_index_total order reads k) as [[after r] Hrun].
  exists after, r. split; [done|]. intros sup ->.
  by apply (greedy_scs_using_index_covers order reads k after).
Qed.

(** ** The k-mer index *)

Lemma length_pyslice_kmer (read : str) (i : nat) (k : Z) :
  0 ≤ k → (Z.of_nat i + k ≤ Z.of_nat (length read)) →
  pyslice read (Some (Z.of_nat i)) (Some (Z.of_nat i + k))
  = take (Z.to_nat k) (drop i read).
Proof.
  intros Hk Hfit. rewrite <- (Z2Nat.id k) at 1 by done.
  rewrite <- Nat2Z.inj_add, pyslice_nonneg. unfold slice. f_equal. lia.
Qed.

(** The k-mers of a read, for [k >= 1]: the windows of [k] characters. *)
Lemma elem_of_get_kmers (read kmer : str) (k : Z) :
  1 ≤ k →
  kmer ∈ get_kmers read k ↔
  ∃ i : nat, (Z.of_nat i + k ≤ Z.of_nat (length read)) ∧
             kmer = take (Z.to_nat k) (drop i read).
Proof.
  intros Hk. unfold get_kmers. rewrite list_elem_of_fmap. split.
  - intros (i & -> & Hi%elem_of_seq). exists i. split; [lia|].
    apply length_pyslice_kmer; lia.
  - intros (i & Hi & ->). exists i. split; [symmetry; apply length_pyslice_kmer; lia|].
    apply elem_of_seq. lia.
Qed.

Lemma file_read_filed (dct : gmap str (gset str)) (read km kmer x : str) :
  filed (match dct !! km with
         | Some reads => <[km := reads ∪ {[read]}]> dct
         | None => <[km := {[read]}]> dct
         end) kmer x
  ↔ filed dct kmer x ∨ (x = read ∧ kmer = km).
Proof.
  unfold filed. destruct (decide (km = kmer)) as [->|Hne].
  - destruct (dct !! kmer) as [s|] eqn:Hs; rewrite lookup_insert_eq; split.
    + intros (s' & Heq & Hx). injection Heq as <-.
      apply elem_of_union in Hx as [Hx|Hx]; [left; by exists s|].
      apply elem_of_singleton in Hx. by right.
    + intros [(s' & Heq & Hx)|[-> _]].
      * injection Heq as <-. eexists. split; [done|]. apply elem_of_union. by left.
      * eexists. split; [done|]. apply elem_of_union. right. by apply elem_of_singleton.
    + intros (s' & Heq & Hx). injection Heq as <-.
      apply elem_of_singleton in Hx. by right.
    + intros [(s' & Heq & _)|[-> _]]; [done|].
      eexists. split; [done|]. by apply elem_of_singleton.
  - assert (Hlook : ∀ v, <[km := v]> dct !! kmer = dct !! kmer)
      by (intros v; by rewrite lookup_insert_ne).
    destruct (dct !! km) as [s|]; rewrite Hlook; split;
      (intros H; first [by left | by destruct H as [?|[_ ?]]]).
Qed.

Lemma add_read_filed (dct : gmap str (gset str)) (read : str) (k : Z) (kmer x : str) :
  filed (add_read dct read k) kmer x ↔
  filed dct kmer x ∨ (x = read ∧ kmer ∈ get_kmers read k).
Proof.
  unfold add_read. generalize (get_kmers read k). intros kmers. revert dct.
  induction kmers as [|km kmers IH]; intros dct; cbn [foldl].
  - split; [by left|]. intros [?|[_ ?%elem_of_nil]]; done.
  - rewrite IH, file_read_filed, elem_of_cons. split.
    + intros [[?|[-> ->]]|[-> ?]]; [by left|right; split; [done|by left]|right; split; [done|by right]].
    + intros [?|[-> [->|?]]]; [by left; left|left; by right|by right].
Qed.

Lemma build_index_filed (reads : list str) (k : Z) (kmer x : str) :
  filed (build_index reads k) kmer x ↔ x ∈ reads ∧ kmer ∈ get_kmers x k.
Proof.
  unfold build_index.
  assert (Hgen : ∀ dct, filed (foldl (fun dct read => add_read dct read k) dct reads) kmer x
                        ↔ filed dct kmer x ∨ (x ∈ reads ∧ kmer ∈ get_kmers x k)).
  { induction reads as [|r reads IH]; intros dct; simpl.
    - split; [by left|]. intros [?|[?%elem_of_nil _]]; done.
    - rewrite IH, add_read_filed, elem_of_cons. split.
      + intros [[?|[-> ?]]|[? ?]]; [by left | right; split; [by left|done] | right; split; [by right|done]].
      + intros [?|[[->|?] ?]]; [by left; left | left; by right | by right]. }
  rewrite Hgen. split; [|by right]. intros [(s & Hs & _)|?]; [|done].
  by rewrite lookup_empty in Hs.
Qed.

(** No key of the index is left without a read. *)
Lemma add_read_nonempty (dct : gmap str (gset str)) (read : str) (k : Z) :
  (∀ key s, dct !! key = Some s → ∃ x, x ∈ s) →
  ∀ key s, add_read dct read k !! key = Some s → ∃ x, x ∈ s.
Proof.
  unfold add_read. generalize (get_kmers read k). intros kmers. revert dct.
  induction kmers as [|km kmers IH]; intros dct Hdct; simpl; [done|].
  apply IH. intros key s.
  destruct (dct !! km) as [s0|] eqn:Hkm;
    (destruct (decide (km = key)) as [->|Hne];
     [rewrite lookup_insert_eq; intros [= <-]; exists read; set_solver
     |rewrite lookup_insert_ne by done; apply Hdct]).
Qed.

Lemma build_index_nonempty (reads : list str) (k : Z) (key : str) (s : gset str) :
  build_index reads k !! key = Some s → ∃ x, x ∈ s.
Proof.
  unfold build_index.
  assert (Hgen : ∀ dct, (∀ key s, dct !! key = Some s → ∃ x, x ∈ s) →
            ∀ key s, foldl (fun dct read => add_read dct read k) dct reads !! key = Some s →
                     ∃ x, x ∈ s).
  { induction reads as [|r reads IH]; intros dct Hdct; simpl; [done|].
    apply IH. by apply add_read_nonempty. }
  apply Hgen. intros key' s'. by rewrite lookup_empty.
Qed.

(** X20: what the k-mer index holds. After [add_read(read, k)] for every
    read of [reads], the set under a key holds a read exactly when the read
    is one of [reads] and the key is one of its k-mers; no key has an empty
    set. *)
Theorem build_index_lookup (reads : list str) (k : Z) (kmer : str) :
  match build_index reads k !! kmer with
  | Some s => s ≠ ∅ ∧ ∀ x, x ∈ s ↔ x ∈ reads ∧ kmer ∈ get_kmers x k
  | None => ∀ x, x ∈ reads → kmer ∉ get_kmers x k
  end.
Proof.
  destruct (build_index reads k !! kmer) as [s|] eqn:Hs.
  - split.
    + destruct (build_index_nonempty _ _ _ _ Hs) as [x Hx]. set_solver.
    + intros x. rewrite <- build_index_filed. unfold filed. rewrite Hs. split.
      * intros Hx. by exists s.
      * by intros (s' & [= <-] & Hx).
  - intros x Hx Hk.
    destruct (proj2 (build_index_filed reads k kmer x)) as (s & Hs' & _); [done|].
    congruence.
Qed.

(** ** Picking with the index: failure and members *)

Lemma suffix_key_long (read : str) (k : Z) :
  1 ≤ k ≤ Z.of_nat (length read) →
  suffix_key read k = take (Z.to_nat k) (drop (length read - Z.to_nat k) read) ∧
  suffix_key read k ∈ get_kmers read k.
Proof.
  intros Hk.
  assert (Heq : suffix_key read k
                = take (Z.to_nat k) (drop (length read - Z.to_nat k) read)).
  { unfold suffix_key, pyslice, slice, clamp. simpl.
    rewrite (proj2 (Z.ltb_lt (- k) 0)) by lia.
    replace (Z.to_nat (Z.of_nat (length read) + - k)) with (length read - Z.to_nat k)%nat by lia.
    f_equal. lia. }
  split; [done|]. apply elem_of_get_kmers; [lia|].
  exists (length read - Z.to_nat k)%nat. split; [lia | done].
Qed.

Lemma suffix_key_short (read : str) (k : Z) :
  Z.of_nat (length read) < k → suffix_key read k = read.
Proof.
  intros Hk. unfold suffix_key, pyslice, slice, clamp. simpl.
  rewrite (proj2 (Z.ltb_lt (- k) 0)) by lia.
  replace (Z.to_nat (Z.of_nat (length read) + - k)) with 0%nat by lia.
  rewrite drop_0, Nat.sub_0_r. by apply take_ge.
Qed.

Lemma length_kmer (read kmer : str) (k : Z) :
  1 ≤ k → kmer ∈ get_kmers read k → Z.of_nat (length kmer) = k.
Proof.
  intros Hk (i & Hi & ->)%elem_of_get_kmers; [|done].
  rewrite length_take, length_drop. lia.
Qed.

(** For [k >= 1], the key of a read of the list is missing from the index
    exactly when the read has fewer than [k] characters. *)
Lemma build_index_suffix_key (reads : list str) (k : Z) (read : str) :
  1 ≤ k → read ∈ reads →
  build_index reads k !! suffix_key read k = None ↔ Z.of_nat (length read) < k.
Proof.
  intros Hk Hread. split.
  - intros Hnone. destruct (decide (Z.of_nat (length read) < k)) as [|Hlong]; [done|].
    destruct (suffix_key_long read k) as [_ Hin]; [lia|].
    destruct (proj2 (build_index_filed reads k (suffix_key read k) read))
      as (s & Hs & _); [done|congruence].
  - intros Hshort. rewrite suffix_key_short by done.
    destruct (build_index reads k !! read) as [s|] eqn:Hs; [|done].
    destruct (build_index_nonempty _ _ _ _ Hs) as [x Hx].
    destruct (proj1 (build_index_filed reads k read x)) as [_ Hkm]; [by exists s|].
    apply length_kmer in Hkm; [lia|done].
Qed.

Lemma pick_reads_Raise (ord : nat → gset str → list str) (kmer_dct : gmap str (gset str))
    (k : Z) (pos : nat) (reads : list str) (st : best) (e : PyExn) :
  pick_reads ord kmer_dct k pos reads st = Raise e ↔
  e = KeyError ∧ ∃ read, read ∈ reads ∧ kmer_dct !! suffix_key read k = None.
Proof.
  revert pos st. induction reads as [|read reads IH]; intros pos st; simpl.
  - split; [done|]. by intros [_ (? & ?%elem_of_nil & _)].
  - fold (suffix_key read k). destruct (kmer_dct !! suffix_key read k) as [matched|] eqn:Hkey.
    + rewrite IH. split; intros [-> (r & Hr & Hnone)]; (split; [done|]); exists r.
      * split; [by right | done].
      * split; [|done]. apply elem_of_cons in Hr as [->|Hr]; [congruence | done].
    + split; [intros [= <-]|by intros [-> _]]. split; [done|].
      exists read. split; [left | done].
Qed.

(** X21: when picking with the index fails. For [k >= 1],
    [pick_max_overlap_index(reads, k)] raises [KeyError] if and only if some
    read has fewer than [k] characters, and it raises nothing else, in
    whatever order the sets are run through. *)
Theorem pick_max_overlap_index_KeyError (ord : nat → gset str → list str)
    (reads : list str) (k : Z) (e : PyExn) :
  1 ≤ k →
  pick_max_overlap_index ord reads k = Raise e ↔
  e = KeyError ∧ ∃ read, read ∈ reads ∧ Z.of_nat (length read) < k.
Proof.
  intros Hk. unfold pick_max_overlap_index. rewrite pick_reads_Raise.
  split; intros [-> (read & Hread & H)]; (split; [done|]); exists read; (split; [done|]).
  - by apply (build_index_suffix_key reads).
  - by apply build_index_suffix_key.
Qed.

Lemma pick_max_overlap_index_KeyError_witness :
  1 ≤ 3 ∧
  (pick_max_overlap_index (fun _ => elements) (s_ <$> ["CAT"; "AT"]%string) 3 = Raise KeyError ↔
   KeyError = KeyError ∧
   ∃ read, read ∈ s_ <$> ["CAT"; "AT"]%string ∧ Z.of_nat (length read) < 3).
Proof.
  split; [lia|]. apply (pick_max_overlap_index_KeyError _ _ 3). lia.
Defined.

(** X22: with [k = 0] the index has the empty string as its only key, and
    a read is looked up by itself ([read[-0:]] is the whole read):
    [pick_max_overlap_index(reads, 0)] raises [KeyError] if and only if some
    read is not empty. *)
Theorem pick_max_overlap_index_k0 (ord : nat → gset str → list str)
    (reads : list str) (e : PyExn) :
  pick_max_overlap_index ord reads 0 = Raise e ↔
  e = KeyError ∧ ∃ read, read ∈ reads ∧ read ≠ [].
Proof.
  unfold pick_max_overlap_index. rewrite pick_reads_Raise.
  assert (Hkey : ∀ read, suffix_key read 0 = read).
  { intros read. unfold suffix_key. change (- 0) with (Z.of_nat 0).
    by rewrite pyslice_suffix. }
  assert (Hkmers : ∀ x kmer, kmer ∈ get_kmers x 0 ↔ kmer = []).
  { intros x kmer. unfold get_kmers. rewrite list_elem_of_fmap. split.
    - intros (i & -> & _). rewrite Z.add_0_r, pyslice_nonneg. unfold slice.
      by rewrite Nat.sub_diag.
    - intros ->. exists 0%nat. split.
      + rewrite Z.add_0_r, pyslice_nonneg. unfold slice. by rewrite Nat.sub_diag.
      + apply elem_of_seq. lia. }
  split; intros [-> (read & Hread & H)]; (split; [done|]); exists read; (split; [done|]).
  - rewrite Hkey in H. intros ->.
    destruct (proj2 (build_index_filed reads 0 [] [])) as (s & Hs & _); [|congruence].
    split; [done | by apply Hkmers].
  - rewrite Hkey. destruct (build_index reads 0 !! read) as [s|] eqn:Hs; [|done].
    destruct (build_index_nonempty _ _ _ _ Hs) as [x Hx].
    destruct (proj1 (build_index_filed reads 0 read x)) as [_ Hkm]; [by exists s|].
    by apply Hkmers in Hkm.
Qed.

Lemma pick_matched_members (reads : list str) (read : str) (k : Z) (matched : list str)
    (st : best) :
  read ∈ reads → (∀ x, x ∈ matched → x ∈ reads) →
  (0 < best_olen st → ∃ a b, reada st = Some a ∧ readb st = Some b ∧
                              a ∈ reads ∧ b ∈ reads ∧ a ≠ b) →
  0 < best_olen (pick_matched read k matched st) →
  ∃ a b, reada (pick_matched read k matched st) = Some a ∧
         readb (pick_matched read k matched st) = Some b ∧
         a ∈ reads ∧ b ∈ reads ∧ a ≠ b.
Proof.
  intros Hread. unfold pick_matched. revert st.
  induction matched as [|x l IH]; intros st Hl Hst; [done|].
  simpl. apply IH; [intros y Hy; apply Hl; by right|].
  case_bool_decide as Hne; [|done].
  destruct (overlap read x k >? best_olen st); [|done].
  intros _. exists read, x. simpl. split_and!; [done..|apply Hl; left|done].
Qed.

Lemma pick_reads_members (ord : nat → gset str → list str) (reads0 : list str) (k : Z)
    (pos : nat) (reads : list str) (st st' : best) :
  (∀ pos s, ord pos s ≡ₚ elements s) →
  (∀ r, r ∈ reads → r ∈ reads0) →
  (0 < best_olen st → ∃ a b, reada st = Some a ∧ readb st = Some b ∧
                              a ∈ reads0 ∧ b ∈ reads0 ∧ a ≠ b) →
  pick_reads ord (build_index reads0 k) k pos reads st = Ok st' →
  0 < best_olen st' →
  ∃ a b, reada st' = Some a ∧ readb st' = Some b ∧ a ∈ reads0 ∧ b ∈ reads0 ∧ a ≠ b.
Proof.
  intros Hord. revert pos st. induction reads as [|read reads IH]; intros pos st Hsub Hst; simpl.
  - by intros [= <-].
  - destruct (build_index reads0 k !! _) as [matched|] eqn:Hkey; [|done].
    apply IH; [intros r Hr; apply Hsub; by right|].
    apply pick_matched_members; [apply Hsub; left| |done].
    intros x Hx. rewrite Hord in Hx. apply elem_of_elements in Hx.
    destruct (proj1 (build_index_filed reads0 k (pyslice read (Some (- k)) None) x))
      as [Hin _]; [by exists matched|done].
Qed.

(** What a successful pick holds: no pair and the overlap 0, or two
    different reads of the list with their positive overlap. *)
Lemma pick_max_overlap_index_members (ord : nat → gset str → list str)
    (reads : list str) (k : Z) (st : best) :
  (∀ pos s, ord pos s ≡ₚ elements s) →
  pick_max_overlap_index ord reads k = Ok st →
  0 ≤ best_olen st ∧
  (0 < best_olen st →
   ∃ a b, st = Best (Some a) (Some b) (overlap a b k) ∧ a ∈ reads ∧ b ∈ reads ∧ a ≠ b).
Proof.
  intros Hord Hpick.
  destruct (pick_max_overlap_index_consistent _ _ _ _ Hpick) as [Hpos Hcons].
  split; [done|]. intros Holen.
  destruct (Hcons Holen) as (a & b & Ha & Hb & Hov).
  eapply pick_reads_members in Hpick as (a' & b' & Ha' & Hb' & Hina & Hinb & Hne);
    [|done|done|simpl; lia|done].
  rewrite Ha in Ha'. rewrite Hb in Hb'. injection Ha' as <-. injection Hb' as <-.
  exists a, b. split; [|done]. destruct st; simpl in *. by subst.
Qed.

(** ** The indexed assembly does not fail on reads of [k] characters *)

Lemma pick_max_overlap_index_Ok (ord : nat → gset str → list str)
    (reads : list str) (k : Z) :
  1 ≤ k → Forall (fun r => k ≤ Z.of_nat (length r)) reads →
  ∃ st, pick_max_overlap_index ord reads k = Ok st.
Proof.
  intros Hk Hlen.
  destruct (pick_max_overlap_index ord reads k) as [st|e] eqn:Hpick; [by eexists|].
  apply pick_reads_Raise in Hpick as [_ (read & Hread & Hnone)].
  apply build_index_suffix_key in Hnone; [|done..].
  eapply Forall_forall in Hlen; [|done]. lia.
Qed.

Lemma list_remove_other (x y : str) (reads reads' : list str) :
  list_remove x reads = Ok reads' → y ∈ reads → y ≠ x → y ∈ reads'.
Proof.
  intros [_ Hperm]%list_remove_elem_of Hy Hne. rewrite Hperm in Hy.
  by apply elem_of_cons in Hy as [->|Hy].
Qed.

Lemma greedy_loop_returns (order : nat → nat → gset str → list str) (k : Z)
    (fuel round : nat) (reads : list str) :
  iteration_order order → 1 ≤ k →
  Forall (fun r => k ≤ Z.of_nat (length r)) reads →
  (length reads ≤ fuel)%nat →
  ∃ after sup,
    greedy_loop fuel order k (S round) reads
                (pick_max_overlap_index (order round) reads k)
    = Some (Outcome after (Ok sup)).
Proof.
  intros Hord Hk. revert round reads.
  induction fuel as [|fuel IH]; intros round reads Hlen Hfuel.
  - destruct reads; [|simpl in Hfuel; lia]. by do 2 eexists.
  - destruct (pick_max_overlap_index_Ok (order round) reads k Hk Hlen) as [st Hpick].
    rewrite Hpick.
    destruct (pick_max_overlap_index_members _ _ _ _ (Hord round) Hpick) as [Hpos Hmem].
    destruct (decide (0 < best_olen st)) as [Holen|Holen].
    2:{ destruct st as [ra rb olen]. cbn [best_olen] in Holen.
        rewrite greedy_loop_done by lia.
        by do 2 eexists. }
    destruct (Hmem Holen) as (a & b & -> & Ha & Hb & Hne). simpl in Holen.
    destruct (list_remove_Ok a reads Ha) as [reads1 Hr1].
    destruct (list_remove_Ok b reads1) as [reads2 Hr2].
    { by eapply list_remove_other. }
    rewrite (greedy_loop_merge _ _ _ _ _ _ _ _ _ _ Holen Hr1 Hr2). cbv zeta.
    apply IH.
    + pose proof (list_remove_elem_of _ _ _ Hr1) as [_ Hp1].
      pose proof (list_remove_elem_of _ _ _ Hr2) as [_ Hp2].
      rewrite Hp1, Hp2 in Hlen. apply Forall_cons in Hlen as [Hla Hlen].
      apply Forall_cons in Hlen as [Hlb Hlen].
      apply Forall_app. split; [done|]. apply Forall_singleton.
      rewrite length_app. lia.
    + apply list_remove_length in Hr1. apply list_remove_length in Hr2.
      rewrite length_app. simpl. lia.
Qed.

(** X23: the indexed assembly of reads of [k] characters or more. For
    [k >= 1] and reads that all have [k] characters or more,
    [greedy_scs_using_index(reads, k)] returns a string: no lookup raises
    [KeyError] (a merged read is as long as its first half at least) and no
    [remove] raises [ValueError], in whatever order the sets of the index are
    run through; the string holds every read and is not longer than the
    concatenation of the reads. *)
Theorem greedy_scs_using_index_returns (order : nat → nat → gset str → list str)
    (reads : list str) (k : Z) :
  iteration_order order → 1 ≤ k →
  Forall (fun r => k ≤ Z.of_nat (length r)) reads →
  ∃ after sup,
    greedy_scs_using_index order reads k = Some (Outcome after (Ok sup)) ∧
    (∀ read, read ∈ reads → substring read sup) ∧
    (length sup ≤ length (concat reads))%nat.
Proof.
  intros Hord Hk Hlen.
  destruct (greedy_loop_returns order k (length reads) 0 reads Hord Hk Hlen)
    as (after & sup & Hrun); [done|].
  exists after, sup. split; [exact Hrun|].
  by apply (greedy_scs_using_index_covers order reads k after).
Qed.

Lemma greedy_scs_using_index_returns_witness :
  iteration_order (fun _ _ => elements) ∧ 1 ≤ 2 ∧
  Forall (fun r => 2 ≤ Z.of_nat (length r)) notebook_reads ∧
  ∃ after sup,
    greedy_scs_using_index (fun _ _ => elements) notebook_reads 2
    = Some (Outcome after (Ok sup)) ∧
    (∀ read, read ∈ notebook_reads → substring read sup) ∧
    (length sup ≤ length (concat notebook_reads))%nat.
Proof.
  assert (H1 : 1 ≤ 2) by lia.
  assert (H2 : Forall (fun r => 2 ≤ Z.of_nat (length r)) notebook_reads).
  { unfold notebook_reads. cbn [fmap list_fmap]. repeat constructor; vm_compute; discriminate. }
  split; [exact elements_iteration_order|]. split; [exact H1|]. split; [exact H2|].
  exact (greedy_scs_using_index_returns _ _ 2 elements_iteration_order H1 H2).
Defined.

(** X24: a read shorter than [k] stops the indexed assembly at once. For
    [k >= 1] and a list with a read of fewer than [k] characters,
    [greedy_scs_using_index(reads, k)] raises [KeyError] in its first pick
    and leaves the caller's list as it was. *)
Theorem greedy_scs_using_index_short_read (order : nat → nat → gset str → list str)
    (reads : list str) (k : Z) (read : str) :
  1 ≤ k → read ∈ reads → Z.of_nat (length read) < k →
  greedy_scs_using_index order reads k = Some (Outcome reads (Raise KeyError)).
Proof.
  intros Hk Hread Hshort. unfold greedy_scs_using_index.
  assert (Hpick : pick_max_overlap_index (order 0%nat) reads k = Raise KeyError).
  { apply pick_reads_Raise. split; [done|]. exists read. split; [done|].
    by apply build_index_suffix_key. }
  rewrite Hpick. by destruct (length reads).
Qed.

Lemma greedy_scs_using_index_short_read_witness :
  1 ≤ 3 ∧ s_ "AT" ∈ s_ <$> ["CAT"; "AT"]%string ∧ Z.of_nat (length (s_ "AT")) < 3 ∧
  greedy_scs_using_index (fun _ _ => elements) (s_ <$> ["CAT"; "AT"]%string) 3
  = Some (Outcome (s_ <$> ["CAT"; "AT"]%string) (Raise KeyError)).
Proof.
  assert (H1 : 1 ≤ 3) by lia.
  assert (H2 : s_ "AT" ∈ s_ <$> ["CAT"; "AT"]%string) by (cbn [fmap list_fmap]; repeat constructor).
  assert (H3 : Z.of_nat (length (s_ "AT")) < 3) by (vm_compute; reflexivity).
  split; [exact H1|]. split; [exact H2|]. split; [exact H3|].
  exact (greedy_scs_using_index_short_read _ _ 3 _ H1 H2 H3).
Defined.

(** ** The brute-force pick *)

Lemma elem_of_enumerate {A} (l : list A) (i : nat) (a : A) :
  (i, a) ∈ enumerate l ↔ l !! i = Some a.
Proof.
  unfold enumerate. rewrite elem_of_lookup_imap. split.
  - by intros (i' & a' & [= -> ->] & Hl).
  - intros Hl. by exists i, a.
Qed.

Lemma elem_of_permutations2 {A} (l : list A) (a b : A) :
  (a, b) ∈ permutations2 l ↔
  ∃ i j, i ≠ j ∧ l !! i = Some a ∧ l !! j = Some b.
Proof.
  unfold permutations2. rewrite list_elem_of_bind. split.
  - intros ([i a'] & Hin & Hia%elem_of_enumerate).
    apply list_elem_of_bind in Hin as ([j b'] & Hin & Hjb%elem_of_enumerate).
    simpl in Hin. case_bool_decide as Hne; [|by apply elem_of_nil in Hin].
    apply list_elem_of_singleton in Hin as [= -> ->]. by exists i, j.
  - intros (i & j & Hne & Hi & Hj). exists (i, a). split; [|by apply elem_of_enumerate].
    apply list_elem_of_bind. exists (j, b). split; [|by apply elem_of_enumerate].
    simpl. rewrite bool_decide_eq_true_2 by done. by apply list_elem_of_singleton.
Qed.

(** The loop of [pick_max_overlap] keeps the first pair of the greatest
    overlap above the starting value. *)
Lemma pick_fold_max (k : Z) (pairs : list (str * str)) (st : best) :
  let step := fun (st : best) (ab : str * str) =>
                let olen := overlap ab.1 ab.2 k in
                if olen >? best_olen st then Best (Some ab.1) (Some ab.2) olen else st in
  best_olen st ≤ best_olen (foldl step st pairs) ∧
  (∀ ab, ab ∈ pairs → overlap ab.1 ab.2 k ≤ best_olen (foldl step st pairs)) ∧
  (foldl step st pairs = st ∨
   ∃ ab, ab ∈ pairs ∧
         foldl step st pairs = Best (Some ab.1) (Some ab.2) (overlap ab.1 ab.2 k) ∧
         best_olen st < overlap ab.1 ab.2 k).
Proof.
  intros step. revert st. induction pairs as [|ab pairs IH]; intros st; cbn [foldl].
  - split; [done|]. split; [by intros ? ?%elem_of_nil | by left].
  - destruct (IH (step st ab)) as (Hmono & Hmax & Hwho).
    assert (Hstep : best_olen st ≤ best_olen (step st ab) ∧
                    overlap ab.1 ab.2 k ≤ best_olen (step st ab) ∧
                    (step st ab = st ∨
                     step st ab = Best (Some ab.1) (Some ab.2) (overlap ab.1 ab.2 k) ∧
                     best_olen st < overlap ab.1 ab.2 k)).
    { unfold step. cbv zeta.
      destruct (Z.gtb_spec (overlap ab.1 ab.2 k) (best_olen st)) as [Hgt|Hle]; cbn [best_olen].
      - split; [lia|]. split; [lia|]. by right.
      - split; [lia|]. split; [lia|]. by left. }
    destruct Hstep as (Hs1 & Hs2 & Hs3).
    split; [lia|]. split.
    + intros ab' [->|Hin]%elem_of_cons; [lia | by apply Hmax].
    + destruct Hwho as [Hsame|(ab' & Hin & Heq & Hlt)].
      * rewrite Hsame. destruct Hs3 as [->|[-> Hlt]]; [by left|].
        right. exists ab. split; [left | done].
      * right. exists ab'. split; [by right|]. split; [done | lia].
Qed.

Lemma pick_max_overlap_max (reads : list str) (k : Z) :
  (∀ i j a b, i ≠ j → reads !! i = Some a → reads !! j = Some b →
              overlap a b k ≤ best_olen (pick_max_overlap reads k)) ∧
  (pick_max_overlap reads k = Best None None 0 ∨
   ∃ i j a b, i ≠ j ∧ reads !! i = Some a ∧ reads !! j = Some b ∧
              pick_max_overlap reads k = Best (Some a) (Some b) (overlap a b k) ∧
              0 < overlap a b k).
Proof.
  unfold pick_max_overlap.
  destruct (pick_fold_max k (permutations2 reads) (Best None None 0))
    as (_ & Hmax & Hwho). cbv zeta in Hmax, Hwho. split.
  - intros i j a b Hne Hi Hj. apply (Hmax (a, b)). apply elem_of_permutations2. eauto.
  - destruct Hwho as [->|([a b] & Hin & -> & Hlt)]; [by left|]. right.
    apply elem_of_permutations2 in Hin as (i & j & Hne & Hi & Hj).
    exists i, j, a, b. done.
Qed.

(** X25: what [pick_max_overlap] returns. Its overlap is the greatest
    [overlap(a, b, k)] over the reads [a], [b] at two different positions of
    the list, and at least 0; a positive one comes with a pair of reads at
    two different positions that has it, the value 0 with [None, None]. *)
Theorem pick_max_overlap_greatest (reads : list str) (k : Z) :
  (∀ i j a b, i ≠ j → reads !! i = Some a → reads !! j = Some b →
              overlap a b k ≤ best_olen (pick_max_overlap reads k)) ∧
  (pick_max_overlap reads k = Best None None 0 ∨
   ∃ i j a b, i ≠ j ∧ reads !! i = Some a ∧ reads !! j = Some b ∧
              pick_max_overlap reads k = Best (Some a) (Some b) (overlap a b k) ∧
              0 < overlap a b k).
Proof. apply pick_max_overlap_max. Qed.

(** ** The brute-force assembly *)

Lemma list_remove_twice (x : str) (reads reads' : list str) (i j : nat) :
  i ≠ j → reads !! i = Some x → reads !! j = Some x →
  list_remove x reads = Ok reads' → x ∈ reads'.
Proof.
  revert reads' i j. induction reads as [|r reads IH]; intros reads' i j Hne Hi Hj; [done|].
  simpl. case_bool_decide as Hr.
  - intros [= <-]. destruct i as [|i], j as [|j]; [done|..].
    + by eapply list_elem_of_lookup_2.
    + by eapply list_elem_of_lookup_2.
    + by eapply list_elem_of_lookup_2.
  - destruct (list_remove x reads) as [reads''|] eqn:Hrem; simpl; [|done].
    intros [= <-]. right. destruct i as [|i], j as [|j]; simplify_eq/=.
    eapply (IH _ i j); [congruence|done..].
Qed.

Lemma greedy_scs_loop_spec (fuel : nat) (k : Z) (reads0 reads : list str)
    (out : list (option str * option str * list str)) :
  (length reads ≤ fuel)%nat → covered reads0 reads →
  ∃ out' after sup,
    greedy_scs_loop fuel k reads (pick_max_overlap reads k) out
    = Some (OutcomePrinted (out ++ out') (Outcome after (Ok sup))) ∧
    sup = concat after ∧ covered reads0 after ∧
    (length sup ≤ length (concat reads))%nat ∧
    (length out' + length after = length reads)%nat.
Proof.
  revert reads out. induction fuel as [|fuel IH]; intros reads out Hfuel Hcov.
  - destruct reads; [|simpl in Hfuel; lia].
    exists [], [], []. rewrite app_nil_r. done.
  - destruct (pick_max_overlap_max reads k) as [_ [Hnone|Hsome]].
    + rewrite Hnone. cbn [greedy_scs_loop]. simpl.
      exists [], reads, (concat reads). rewrite app_nil_r. split_and!; [done..|simpl; lia].
    + destruct Hsome as (i & j & a & b & Hne & Hi & Hj & -> & Holen).
      cbn [greedy_scs_loop]. rewrite (proj2 (Z.gtb_gt _ _)) by lia.
      destruct (list_remove_Ok a reads) as [reads1 Hr1]; [by eapply list_elem_of_lookup_2|].
      assert (Hb1 : b ∈ reads1).
      { destruct (decide (b = a)) as [->|Hba].
        - by eapply (list_remove_twice a reads reads1 i j).
        - eapply list_remove_other; [done| |done]. by eapply list_elem_of_lookup_2. }
      destruct (list_remove_Ok b reads1 Hb1) as [reads2 Hr2].
      rewrite Hr1, Hr2.
      destruct (merge_step reads0 reads reads1 reads2 a b k Hr1 Hr2 Hcov) as [Hcov' Hlen].
      pose proof (list_remove_length _ _ _ Hr1) as Hl1.
      pose proof (list_remove_length _ _ _ Hr2) as Hl2.
      destruct (IH (reads2 ++ [a ++ pyslice b (Some (overlap a b k)) None])
                   (out ++ [(Some a, Some b, reads)]))
        as (out' & after & sup & Hrun & Hsup & Hafter & Hlen' & Hcount);
        [rewrite length_app; simpl; lia | done |].
      exists ((Some a, Some b, reads) :: out'), after, sup.
      rewrite Hrun, <- app_assoc. split_and!; [done..|lia|].
      rewrite length_app in Hcount. simpl in *. lia.
Qed.

(** X26: [greedy_scs] always returns, and what it returns is a common
    superstring. For every list of reads and every [k], the call raises
    nothing, the returned string holds every read of the input and is not
    longer than their concatenation, it is the concatenation of the list the
    call leaves to the caller, and one line was printed for each read the
    list has lost. *)
Theorem greedy_scs_superstring (reads : list str) (k : Z) :
  ∃ out after sup,
    greedy_scs reads k = Some (OutcomePrinted out (Outcome after (Ok sup))) ∧
    sup = concat after ∧
    (∀ read, read ∈ reads → substring read sup) ∧
    (length sup ≤ length (concat reads))%nat ∧
    (length out + length after = length reads)%nat.
Proof.
  destruct (greedy_scs_loop_spec (length reads) k reads reads [])
    as (out & after & sup & Hrun & Hsup & Hcov & Hlen & Hcount);
    [done | apply covered_refl |].
  exists out, after, sup. split_and!; [done..| |done|done].
  intros read (e & He & Hsub)%Hcov. subst sup.
  eapply substring_trans; [done | by apply substring_concat].
Qed.

(** ** scs: the superstrings of the permutations *)

Lemma permutations_of_Permutation {A} (n : nat) (l p : list A) :
  length l = n → p ∈ permutations_of n l → p ≡ₚ l.
Proof.
  revert l p. induction n as [|n IH]; intros l p Hlen; cbn [permutations_of].
  - intros ->%list_elem_of_singleton. by destruct l.
  - intros ([i a] & Hp & Hia%elem_of_enumerate)%list_elem_of_bind. simpl in Hp.
    apply list_elem_of_fmap in Hp as (p' & -> & Hp').
    apply IH in Hp'.
    + rewrite Hp'. symmetry. by apply delete_Permutation.
    + rewrite length_delete by done. lia.
Qed.

Lemma permutations_of_nonempty {A} (n : nat) (l : list A) :
  length l = n → permutations_of n l ≠ [].
Proof.
  revert l. induction n as [|n IH]; intros l Hlen; cbn [permutations_of]; [done|].
  destruct l as [|x l]; [done|]. unfold enumerate. rewrite imap_cons.
  cbn [mbind list_bind]. simpl.
  specialize (IH l ltac:(by injection Hlen)).
  destruct (permutations_of n l); done.
Qed.

Lemma concat_length_Permutation (p l : list str) :
  p ≡ₚ l → length (concat p) = length (concat l).
Proof.
  induction 1 as [|x l1 l2 _ IH|x y l1|l1 l2 l3 _ IH1 _ IH2]; simpl;
    rewrite ?length_app; lia.
Qed.

(** Appending the part of [b] behind its overlap with [a] to a string that
    ends with [a] gives a string that ends with [b]. *)
Lemma chain_step (pre a b : str) (k : Z) :
  ∃ pre', (pre ++ a) ++ pyslice b (Some (overlap a b k)) None = pre' ++ b ∧
          (length (pyslice b (Some (overlap a b k)) None) ≤ length b)%nat.
Proof.
  destruct (overlap_suffix a b k) as (v & -> & Hva & Hvb & Hov).
  rewrite pyslice_suffix. exists (pre ++ take (length a - v) a). split.
  - rewrite <- (take_drop (length a - v) a) at 1.
    rewrite Hov, <- !app_assoc. by rewrite take_drop.
  - rewrite length_drop. lia.
Qed.

(** The inner loop of [scs] from position [i] on: every index is inside
    the permutation, the string grows at its end only, it ends with the
    string last added and holds every string added. *)
Lemma scs_chain_spec (p : list str) (m i : nat) (sup a : str) :
  (i + m < length p)%nat → p !! i = Some a → (∃ pre, sup = pre ++ a) →
  ∃ sup', scs_chain p (seq i m) sup = Ok sup' ∧
          (∃ post, sup' = sup ++ post) ∧
          (∀ j b, (i < j ≤ i + m)%nat → p !! j = Some b → substring b sup') ∧
          (length sup' ≤ length sup + length (concat (take m (drop (S i) p))))%nat.
Proof.
  revert i sup a. induction m as [|m IH]; intros i sup a Hfit Ha [pre ->].
  - exists (pre ++ a). cbn [seq scs_chain]. split; [done|]. split.
    + exists []. by rewrite app_nil_r.
    + split; [intros j b Hj; lia | lia].
  - cbn [seq scs_chain]. rewrite Ha.
    destruct (lookup_lt_is_Some_2 p (i + 1)) as [b Hb]; [lia|]. rewrite Hb.
    destruct (chain_step pre a b 1) as (pre' & Heq & Hlen).
    destruct (IH (S i) ((pre ++ a) ++ pyslice b (Some (overlap a b 1)) None) b)
      as (sup' & Hrun & [post Hpost] & Hsub & Hlen'); [lia| |by exists pre'|].
    { by replace (S i) with (i + 1)%nat by lia. }
    exists sup'. split; [exact Hrun|]. split; [|split].
    + exists (pyslice b (Some (overlap a b 1)) None ++ post).
      by rewrite Hpost, <- !app_assoc.
    + intros j c Hj Hc. destruct (decide (j = S i)) as [->|Hne].
      * replace (S i) with (i + 1)%nat in Hc by lia. rewrite Hb in Hc.
        injection Hc as <-. apply substring_app. exists pre', post.
        by rewrite Hpost, Heq, <- app_assoc.
      * apply (Hsub j c); [lia | done].
    + rewrite (drop_S p b (S i)) by (by replace (S i) with (i + 1)%nat by lia).
      cbn [take concat]. rewrite !length_app in *. lia.
Qed.

(** The superstring that [scs] builds for one permutation of the strings. *)
Lemma scs_permutation (ss p : list str) :
  ss ≠ [] → p ≡ₚ ss →
  ∃ first sup,
    p !! 0%nat = Some first ∧
    scs_chain p (seq 0 (length ss - 1)) first = Ok sup ∧
    (∀ s, s ∈ ss → substring s sup) ∧
    (length sup ≤ length (concat ss))%nat.
Proof.
  intros Hne Hperm.
  assert (Hlen : length p = length ss) by (by rewrite Hperm).
  destruct p as [|first p']; [by destruct ss|].
  exists first.
  destruct (scs_chain_spec (first :: p') (length ss - 1) 0 first first)
    as (sup & Hrun & [post Hpost] & Hsub & Hbound);
    [simpl in *; lia | done | by exists [] |].
  exists sup. split; [done|]. split; [exact Hrun|]. split.
  - intros s Hs. rewrite <- Hperm in Hs.
    apply list_elem_of_lookup in Hs as [j Hj].
    destruct j as [|j].
    + injection Hj as ->. apply substring_app. exists [], post. by rewrite Hpost.
    + apply (Hsub (S j) s); [|done]. apply lookup_lt_Some in Hj. simpl in *. lia.
  - rewrite <- (concat_length_Permutation _ _ Hperm).
    change (drop 1 (first :: p')) with p' in Hbound.
    rewrite take_ge in Hbound by (cbn [length] in Hlen; lia).
    cbn [concat]. rewrite length_app. lia.
Qed.

Lemma permutations_of_complete {A} (n : nat) (l p : list A) :
  length l = n → p ≡ₚ l → p ∈ permutations_of n l.
Proof.
  revert l p. induction n as [|n IH]; intros l p Hlen Hperm; cbn [permutations_of].
  - destruct l; [|done]. apply Permutation_nil_r in Hperm as ->. left.
  - destruct p as [|a p'].
    { symmetry in Hperm. apply Permutation_nil_r in Hperm. by subst l. }
    assert (Ha : a ∈ l) by (rewrite <- Hperm; left).
    apply list_elem_of_lookup in Ha as [i Hi].
    apply list_elem_of_bind. exists (i, a). split; [|by apply elem_of_enumerate].
    simpl. apply list_elem_of_fmap. exists p'. split; [done|].
    apply IH.
    + rewrite length_delete by done. lia.
    + apply (Permutation_cons_inv (a := a)). rewrite Hperm.
      by apply delete_Permutation.
Qed.

Lemma scs_step_spec (ss p : list str) (st : option str * list str) :
  ss ≠ [] → p ≡ₚ ss → scs_state ss st →
  ∃ first sup st',
    p !! 0%nat = Some first ∧
    scs_chain p (seq 0 (length ss - 1)) first = Ok sup ∧
    scs_step (length ss) st p = Ok st' ∧ scs_state ss st' ∧
    ∃ shortest, st'.1 = Some shortest ∧ (length shortest ≤ length sup)%nat ∧
                ∀ sh, st.1 = Some sh → (length shortest ≤ length sh)%nat.
Proof.
  intros Hne Hperm (Hgood & Hsorted & Hlast).
  destruct (scs_permutation ss p Hne Hperm) as (first & sup & Hfirst & Hrun & Hsub & Hlen).
  exists first, sup. unfold scs_step. rewrite Hfirst, Hrun. cbn [bind].
  destruct st as [[sh|] lst]; cbn [fst snd] in *.
  - destruct Hlast as [Hlast Hmin]. case_bool_decide as Hle.
    + eexists. split; [done|]. split; [done|]. split; [done|]. split.
      * split; [|split]; cbn [fst snd].
        -- intros x [Hx|Hx]%elem_of_app; [by apply Hgood|].
           by apply list_elem_of_singleton in Hx as ->.
        -- apply StronglySorted_app_2; [|done|repeat constructor].
           intros x1 x2 Hx1 ->%list_elem_of_singleton. specialize (Hmin x1 Hx1). lia.
        -- split; [apply last_snoc|].
           intros x [Hx|Hx]%elem_of_app.
           ++ specialize (Hmin x Hx). lia.
           ++ by apply list_elem_of_singleton in Hx as ->.
      * exists sup. cbn [fst]. split; [done|]. split; [done|]. by intros ? [= <-].
    + eexists. split; [done|]. split; [done|]. split; [done|]. split; [done|].
      exists sh. cbn [fst]. split; [done|]. split; [lia|]. by intros ? [= <-].
  - subst lst. eexists. split; [done|]. split; [done|]. split; [done|]. split.
    + split; [|split]; cbn [fst snd app].
      * by intros x ->%list_elem_of_singleton.
      * repeat constructor.
      * split; [done|]. by intros x ->%list_elem_of_singleton.
    + exists sup. cbn [fst]. split; [done|]. split; [done|]. done.
Qed.

Lemma scs_loop_spec (ss : list str) (perms : list (list str))
    (st : option str * list str) :
  ss ≠ [] → (∀ p, p ∈ perms → p ≡ₚ ss) → scs_state ss st →
  ∃ st', scs_loop (length ss) perms st = Ok st' ∧ scs_state ss st' ∧
         (∀ sh, st.1 = Some sh →
                ∃ sh', st'.1 = Some sh' ∧ (length sh' ≤ length sh)%nat) ∧
         (∀ p first sup,
            p ∈ perms → p !! 0%nat = Some first →
            scs_chain p (seq 0 (length ss - 1)) first = Ok sup →
            ∃ sh', st'.1 = Some sh' ∧ (length sh' ≤ length sup)%nat).
Proof.
  intros Hne. revert st. induction perms as [|p perms IH]; intros st Hperms Hst.
  - exists st. split; [done|]. split; [done|]. split; [by eauto|].
    by intros p first sup ?%elem_of_nil.
  - destruct (scs_step_spec ss p st Hne) as
      (first & sup & st1 & Hfirst & Hrun & Hstep & Hst1 & sh1 & Hsh1 & Hle1 & Hmono1);
      [apply Hperms; left | done |].
    destruct (IH st1) as (st' & Hloop & Hst' & Hmono & Hmin);
      [intros q Hq; apply Hperms; by right | done |].
    exists st'. cbn [scs_loop]. rewrite Hstep. cbn [bind].
    split; [exact Hloop|]. split; [done|].
    destruct (Hmono sh1 Hsh1) as (sh' & Hsh' & Hle').
    split.
    + intros sh Hsh. exists sh'. split; [done|]. specialize (Hmono1 sh Hsh). lia.
    + intros q first' sup' [->|Hq]%elem_of_cons Hq0 Hq1.
      * rewrite Hfirst in Hq0. injection Hq0 as <-. rewrite Hrun in Hq1.
        injection Hq1 as <-. exists sh'. split; [done | lia].
      * by apply (Hmin q first' sup').
Qed.

(** X27: what [scs] returns. On the empty list it raises [IndexError]
    ([itertools.permutations] yields the one empty order, which has no first
    string) and it fails in no other case. On any other list it returns a
    list of strings that each hold every string of [ss] and are not longer
    than the strings of [ss] together; the lengths along the list do not
    grow, and its last string is as short as the string obtained by chaining
    [ss] in any order, each string appended behind its overlap with the one
    before. *)
Theorem scs_superstrings (ss : list str) :
  match scs ss with
  | Raise e => ss = [] ∧ e = IndexError
  | Ok lst =>
      ss ≠ [] ∧
      (∀ sup, sup ∈ lst →
              (∀ s, s ∈ ss → substring s sup) ∧ (length sup ≤ length (concat ss))%nat) ∧
      StronglySorted (fun x y : str => (length y ≤ length x)%nat) lst ∧
      ∃ shortest,
        last lst = Some shortest ∧
        ∀ p first sup,
          p ≡ₚ ss → p !! 0%nat = Some first →
          scs_chain p (seq 0 (length ss - 1)) first = Ok sup →
          (length shortest ≤ length sup)%nat
  end.
Proof.
  destruct (decide (ss = [])) as [->|Hne]; [by vm_compute|].
  destruct (scs_loop_spec ss (itertools_permutations ss) (None, []) Hne)
    as ([sh lst] & Hloop & (Hgood & Hsorted & Hlast) & _ & Hmin).
  { intros p Hp. by apply (permutations_of_Permutation (length ss)). }
  { split; [by intros ? ?%elem_of_nil|]. split; [constructor | done]. }
  unfold scs. rewrite Hloop. cbn [bind snd]. cbn [fst snd] in *.
  split; [done|]. split; [done|]. split; [done|].
  pose proof (permutations_of_nonempty (length ss) ss eq_refl) as Hsome.
  destruct (itertools_permutations ss) as [|p0 perms] eqn:Hperms; [done|].
  assert (Hp0 : p0 ≡ₚ ss).
  { apply (permutations_of_Permutation (length ss)); [done|].
    fold (itertools_permutations ss). rewrite Hperms. left. }
  destruct (scs_permutation ss p0 Hne Hp0) as (first0 & sup0 & Hf0 & Hr0 & _).
  destruct (Hmin p0 first0 sup0) as (sh' & -> & _); [left | done..|].
  destruct Hlast as [Hlast _]. exists sh'. split; [done|].
  intros p first sup Hp Hfirst Hrun.
  destruct (Hmin p first sup) as (sh'' & [= <-] & Hle); [|done..].
  rewrite <- Hperms. by apply permutations_of_complete.
Qed.

(** ** The index against the brute force *)

Lemma pick_matched_max (read : str) (k : Z) (matched : list str) (st : best) :
  best_olen st ≤ best_olen (pick_matched read k matched st) ∧
  ∀ x, x ∈ matched → x ≠ read →
       overlap read x k ≤ best_olen (pick_matched read k matched st).
Proof.
  unfold pick_matched. revert st. induction matched as [|y l IH]; intros st; cbn [foldl].
  - split; [done|]. by intros x ?%elem_of_nil.
  - match goal with
    | |- context [foldl ?f ?s l] => destruct (IH s) as [Hmono Hmax]; set (st1 := s) in *
    end.
    assert (Hstep : best_olen st ≤ best_olen st1 ∧
                    (y ≠ read → overlap read y k ≤ best_olen st1)).
    { subst st1. case_bool_decide as Hne; [|done]. cbv zeta.
      destruct (Z.gtb_spec (overlap read y k) (best_olen st)); cbn [best_olen]; lia. }
    destruct Hstep as [Hs1 Hs2]. split; [lia|].
    intros x [->|Hx]%elem_of_cons Hne; [specialize (Hs2 Hne); lia | by apply Hmax].
Qed.

Lemma pick_reads_max (ord : nat → gset str → list str) (kmer_dct : gmap str (gset str))
    (k : Z) (pos : nat) (reads : list str) (st st' : best) :
  (∀ pos s, ord pos s ≡ₚ elements s) →
  pick_reads ord kmer_dct k pos reads st = Ok st' →
  best_olen st ≤ best_olen st' ∧
  ∀ read matched x,
    read ∈ reads → kmer_dct !! suffix_key read k = Some matched →
    x ∈ matched → x ≠ read → overlap read x k ≤ best_olen st'.
Proof.
  intros Hord. revert pos st.
  induction reads as [|r reads IH]; intros pos st; cbn [pick_reads].
  - intros [= <-]. split; [done|]. by intros read matched x ?%elem_of_nil.
  - fold (suffix_key r k). destruct (kmer_dct !! suffix_key r k) as [m|] eqn:Hkey; [|done].
    intros [Hmono Hmax]%IH.
    destruct (pick_matched_max r k (ord pos m) st) as [Hm1 Hm2].
    split; [lia|].
    intros read matched x [->|Hread]%elem_of_cons Hlook Hx Hne.
    + rewrite Hkey in Hlook. injection Hlook as <-.
      assert (Hx' : x ∈ ord pos m) by (rewrite Hord; by apply elem_of_elements).
      specialize (Hm2 x Hx' Hne). lia.
    + by apply (Hmax read matched x).
Qed.

(** Two reads of [k] characters or more with a positive overlap share the
    k-mer that the first one ends with. *)
Lemma overlap_shares_kmer (a b : str) (k : Z) :
  1 ≤ k → k ≤ Z.of_nat (length a) → k ≤ Z.of_nat (length b) →
  0 < overlap a b k → suffix_key a k ∈ get_kmers b k.
Proof.
  intros Hk Hka Hkb Hpos.
  assert (Hlong : k ≤ overlap a b k).
  { rewrite overlap_in_range in * by lia.
    destruct (Z.leb_spec k (Z.of_nat (longest_overlap a b))); lia. }
  destruct (overlap_suffix a b k) as (v & Hv & Hva & Hvb & Hov).
  rewrite Hv in Hlong.
  destruct (suffix_key_long a k) as [-> _]; [lia|].
  apply elem_of_get_kmers; [done|].
  exists (v - Z.to_nat k)%nat. split; [lia|].
  replace (length a - Z.to_nat k)%nat with (length a - v + (v - Z.to_nat k))%nat by lia.
  rewrite <- drop_drop, Hov.
  rewrite (take_drop_commute b (Z.to_nat k) (v - Z.to_nat k)).
  replace (v - Z.to_nat k + Z.to_nat k)%nat with v by lia.
  apply take_ge. rewrite length_drop, length_take. lia.
Qed.

(** X28: the index changes nothing in the pick. For [k >= 1] and a list of
    different reads that all have [k] characters or more,
    [pick_max_overlap_index(reads, k)] finds the overlap that the brute
    force [pick_max_overlap(reads, k)] finds, in whatever order the sets of
    the index are run through: a pair with a positive overlap shares a
    k-mer, so the index passes it to [overlap]. *)
Theorem pick_max_overlap_index_brute_force (ord : nat → gset str → list str)
    (reads : list str) (k : Z) :
  (∀ pos s, ord pos s ≡ₚ elements s) → 1 ≤ k → NoDup reads →
  Forall (fun r => k ≤ Z.of_nat (length r)) reads →
  ∃ st, pick_max_overlap_index ord reads k = Ok st ∧
        best_olen st = best_olen (pick_max_overlap reads k).
Proof.
  intros Hord Hk Hnodup Hlen.
  destruct (pick_max_overlap_index_Ok ord reads k Hk Hlen) as [st Hpick].
  exists st. split; [done|].
  destruct (pick_max_overlap_index_members ord reads k st Hord Hpick) as [Hpos Hmem].
  destruct (pick_max_overlap_max reads k) as [Hmax Hwho].
  apply Z.le_antisymm.
  - destruct (decide (0 < best_olen st)) as [Holen|Holen].
    + destruct (Hmem Holen) as (a & b & -> & Ha & Hb & Hne). cbn [best_olen].
      apply list_elem_of_lookup in Ha as [i Hi]. apply list_elem_of_lookup in Hb as [j Hj].
      apply (Hmax i j); [|done..]. intros ->. congruence.
    + destruct Hwho as [->|(i & j & a & b & _ & _ & _ & -> & Hov)]; cbn [best_olen]; lia.
  - destruct Hwho as [->|(i & j & a & b & Hij & Hi & Hj & -> & Hov)]; cbn [best_olen]; [done|].
    assert (Hab : b ≠ a).
    { intros ->. apply Hij. by eapply NoDup_lookup. }
    assert (Ha : a ∈ reads) by (by eapply list_elem_of_lookup_2).
    assert (Hb : b ∈ reads) by (by eapply list_elem_of_lookup_2).
    assert (Hkmer : suffix_key a k ∈ get_kmers b k).
    { apply overlap_shares_kmer; [done| | |done].
      - by apply (proj1 (Forall_forall _ _) Hlen a).
      - by apply (proj1 (Forall_forall _ _) Hlen b). }
    destruct (proj2 (build_index_filed reads k (suffix_key a k) b)) as (s & Hs & Hbs); [done|].
    unfold pick_max_overlap_index in Hpick.
    apply (pick_reads_max _ _ _ _ _ _ _ Hord) in Hpick as [_ Hbest].
    by apply (Hbest a s b).
Qed.

Lemma pick_max_overlap_index_brute_force_witness :
  (∀ (pos : nat) (s : gset str), elements s ≡ₚ elements s) ∧ 1 ≤ 2 ∧ NoDup notebook_reads ∧
  Forall (fun r => 2 ≤ Z.of_nat (length r)) notebook_reads ∧
  ∃ st, pick_max_overlap_index (fun _ => elements) notebook_reads 2 = Ok st ∧
        best_olen st = best_olen (pick_max_overlap notebook_reads 2).
Proof.
  assert (H0 : ∀ (pos : nat) (s : gset str), elements s ≡ₚ elements s) by done.
  assert (H1 : 1 ≤ 2) by lia.
  assert (H2 : NoDup notebook_reads).
  { apply (bool_decide_unpack _). vm_compute. reflexivity. }
  assert (H3 : Forall (fun r => 2 ≤ Z.of_nat (length r)) notebook_reads).
  { unfold notebook_reads. cbn [fmap list_fmap]. repeat constructor; vm_compute; discriminate. }
  split; [exact H0|]. split; [exact H1|]. split; [exact H2|]. split; [exact H3|].
  exact (pick_max_overlap_index_brute_force (fun _ => elements) notebook_reads 2 H0 H1 H2 H3).
Defined.

(** ** Edit distance: the matrix and its recurrence *)

(** A loop over [range(lo, lo + n)] that keeps an invariant of the counter
    and the state. *)
Lemma foldl_seq_invariant {A} (P : nat → A → Prop) (f : A → nat → A) (n lo : nat) (a : A) :
  P lo a →
  (∀ j a, (lo ≤ j < lo + n)%nat → P j a → P (S j) (f a j)) →
  P (lo + n)%nat (foldl f a (seq lo n)).
Proof.
  revert lo a. induction n as [|n IH]; intros lo a Ha Hstep; cbn [seq foldl].
  - by rewrite Nat.add_0_r.
  - replace (lo + S n)%nat with (S lo + n)%nat by lia. apply IH.
    + apply Hstep; [lia | done].
    + intros j b Hj. apply Hstep. lia.
Qed.

Lemma distance_table_S (first_row : nat → Z) (x y : str) (i j : nat) :
  distance_table first_row x y (S i) (S j)
  = Z.min (Z.min (distance_table first_row x y (S i) j + 1)
                 (distance_table first_row x y i (S j) + 1))
          (if bool_decide (x !! i = y !! j) then distance_table first_row x y i j
           else distance_table first_row x y i j + 1).
Proof. reflexivity. Qed.

Lemma distance_table_0 (first_row : nat → Z) (x y : str) (i : nat) :
  distance_table first_row x y (S i) 0 = Z.of_nat (S i).
Proof. reflexivity. Qed.

Section fill.
Context (x y : str) (first_row : nat → Z).

(** One cell: the three cells it reads have been passed. *)
Lemma filled_fill_cell (r c i j : nat) (D : list (list Z)) :
  (1 ≤ i < r)%nat → (1 ≤ j < c)%nat →
  filled r c (distance_table first_row x y) i j D →
  filled r c (distance_table first_row x y) i (S j) (fill_cell x y D i j).
Proof.
  intros Hi Hj [Hdims Hcells]. unfold fill_cell. cbv zeta.
  split; [by apply dims_mset|].
  intros i' j' Hi' Hj' Hpassed. rewrite (mget_mset r c) by done.
  case_decide as Hhere.
  - destruct Hhere as (<- & <- & _ & _).
    destruct i as [|i0]; [lia|]. destruct j as [|j0]; [lia|].
    rewrite distance_table_S. cbn [Nat.sub]. rewrite !Nat.sub_0_r.
    rewrite !Hcells by lia. done.
  - apply Hcells; [done..|]. lia.
Qed.

(** One row, then all the rows. *)
Lemma filled_fill_matrix (r c : nat) (D : list (list Z)) :
  r = (length x + 1)%nat → c = (length y + 1)%nat →
  filled r c (distance_table first_row x y) 1 1 D →
  filled r c (distance_table first_row x y) r 1 (fill_matrix x y D).
Proof.
  intros Hr Hc HD. unfold fill_matrix.
  replace r with (1 + length x)%nat at 2 by lia.
  apply (foldl_seq_invariant
           (fun i D => filled r c (distance_table first_row x y) i 1 D)); [done|].
  intros i D' Hi HD'.
  assert (Hrow : filled r c (distance_table first_row x y) i (1 + length y)
                        (foldl (fun D j => fill_cell x y D i j) D' (seq 1 (length y)))).
  { apply (foldl_seq_invariant
             (fun j D => filled r c (distance_table first_row x y) i j D)); [done|].
    intros j D'' Hj HD''. apply filled_fill_cell; [lia..|done]. }
  destruct Hrow as [Hdims Hcells]. split; [done|].
  intros i' j' Hi' Hj' Hpassed. apply Hcells; [done..|]. lia.
Qed.
End fill.

(** The two loops that initialise the first column and the first row. *)
Lemma mget_init_column (r c n : nat) (h : nat → Z) (D : list (list Z)) (i j : nat) :
  dims r c D →
  dims r c (foldl (fun D i => mset D i 0 (h i)) D (seq 0 n)) ∧
  mget (foldl (fun D i => mset D i 0 (h i)) D (seq 0 n)) i j
  = if decide (j = 0 ∧ i < n ∧ i < r ∧ 0 < c)%nat then h i else mget D i j.
Proof.
  intros HD. induction n as [|n [IHd IHv]].
  - split; [done|]. by rewrite decide_False by lia.
  - rewrite seq_S, foldl_app. cbn [foldl]. split; [by apply dims_mset|].
    rewrite (mget_mset r c) by done. rewrite IHv.
    repeat case_decide; try done; try (exfalso; lia); destruct_and!; by subst.
Qed.

Lemma mget_init_row (r c n : nat) (h : nat → Z) (D : list (list Z)) (i j : nat) :
  dims r c D →
  dims r c (foldl (fun D i => mset D 0 i (h i)) D (seq 0 n)) ∧
  mget (foldl (fun D i => mset D 0 i (h i)) D (seq 0 n)) i j
  = if decide (i = 0 ∧ j < n ∧ 0 < r ∧ j < c)%nat then h j else mget D i j.
Proof.
  intros HD. induction n as [|n [IHd IHv]].
  - split; [done|]. by rewrite decide_False by lia.
  - rewrite seq_S, foldl_app. cbn [foldl]. split; [by apply dims_mset|].
    rewrite (mget_mset r c) by done. rewrite IHv.
    repeat case_decide; try done; try (exfalso; lia); destruct_and!; by subst.
Qed.

(** The matrix of either function when the loops are over: every cell
    holds the value of the recurrence. *)
Lemma filled_matrix (x y : str) (first_row : nat → Z) :
  first_row 0%nat = 0 →
  filled (length x + 1) (length y + 1) (distance_table first_row x y) (length x + 1) 1
    (fill_matrix x y
       (foldl (fun D i => mset D 0 i (first_row i)) (init_first_column x (zero_matrix x y))
              (seq 0 (length y + 1)))).
Proof.
  intros H0. apply filled_fill_matrix; [done..|].
  unfold init_first_column.
  pose proof (dims_zero_matrix x y) as Hz.
  split.
  - eapply (mget_init_row _ _ _ _ _ 0 0), (mget_init_column _ _ _ _ _ 0 0), Hz.
  - intros i' j' Hi' Hj' Hpassed.
    destruct (mget_init_column _ _ (length x + 1) Z.of_nat _ i' j' Hz) as [Hd Hv].
    destruct (mget_init_row _ _ (length y + 1) first_row _ i' j' Hd) as [_ ->].
    rewrite Hv. destruct i' as [|i0].
    + rewrite decide_True by lia. done.
    + rewrite decide_False by lia. destruct j' as [|j0]; [|lia].
      rewrite decide_True by lia. done.
Qed.

Lemma editDist_xy_table (x y : str) :
  editDist_xy x y = distance_table Z.of_nat x y (length x) (length y).
Proof.
  unfold editDist_xy.
  destruct (filled_matrix x y Z.of_nat eq_refl) as [Hd Hc].
  destruct (last_last_row _ _ _ Hd) as [-> _]. simpl. apply Hc; lia.
Qed.

(** ** Edit distance between two strings *)

Lemma distance_table_bounds (x y : str) (i j : nat) :
  Z.abs (Z.of_nat i - Z.of_nat j) ≤ distance_table Z.of_nat x y i j
  ≤ Z.max (Z.of_nat i) (Z.of_nat j).
Proof.
  revert j. induction i as [|i IHi]; intros j; [simpl; lia|].
  induction j as [|j IHj]; [rewrite distance_table_0; lia|].
  rewrite distance_table_S.
  pose proof (IHi j). pose proof (IHi (S j)).
  case_bool_decide; lia.
Qed.

Lemma take_S_eq (x y : str) (i : nat) :
  (i < length x)%nat → (i < length y)%nat →
  take (S i) x = take (S i) y ↔ take i x = take i y ∧ x !! i = y !! i.
Proof.
  intros Hx Hy. split.
  - intros Heq. split.
    + apply (f_equal (take i)) in Heq. rewrite !take_take in Heq.
      by rewrite !Nat.min_l in Heq by lia.
    + apply (f_equal (.!! i)) in Heq. by rewrite !lookup_take_lt in Heq by lia.
  - intros [Heq Hi].
    destruct (lookup_lt_is_Some_2 x i Hx) as [a Ha].
    rewrite (take_S_r x i a), (take_S_r y i a) by congruence. by rewrite Heq.
Qed.

Lemma distance_table_zero (x y : str) (i j : nat) :
  (i ≤ length x)%nat → (j ≤ length y)%nat →
  distance_table Z.of_nat x y i j = 0 ↔ i = j ∧ take i x = take i y.
Proof.
  revert j. induction i as [|i IHi]; intros j Hi Hj.
  - simpl. split; [intros ?; split; [lia | done] | intros [<- _]; done].
  - destruct j as [|j]; [rewrite distance_table_0; split; [lia | intros [? _]; lia]|].
    rewrite distance_table_S.
    pose proof (distance_table_bounds x y (S i) j).
    pose proof (distance_table_bounds x y i (S j)).
    pose proof (distance_table_bounds x y i j).
    specialize (IHi j ltac:(lia) ltac:(lia)).
    split.
    + intros Hzero. case_bool_decide as Hc; [|lia].
      destruct (proj1 IHi ltac:(lia)) as [-> Htake]. split; [done|].
      apply take_S_eq; [lia..|done].
    + intros [[= ->] Htake]. apply take_S_eq in Htake as [Htake Hc]; [|lia..].
      rewrite bool_decide_eq_true_2 by done.
      rewrite (proj2 IHi) by done. lia.
Qed.

Lemma distance_table_sym (x y : str) (i j : nat) :
  distance_table Z.of_nat x y i j = distance_table Z.of_nat y x j i.
Proof.
  revert j. induction i as [|i IHi]; intros j.
  - destruct j; [done|]. by rewrite distance_table_0.
  - induction j as [|j IHj]; [by rewrite distance_table_0|].
    rewrite !distance_table_S, IHj, <- !IHi.
    repeat case_bool_decide; try congruence; lia.
Qed.

(** X29: [editDist_xy] behaves as a distance. For all strings [x] and [y],
    [editDist_xy(x, y) == editDist_xy(y, x)]; the value is 0 exactly when
    the two strings are equal; and it lies between the difference of the
    two lengths and the greater of them. *)
Theorem editDist_xy_distance (x y : str) :
  editDist_xy x y = editDist_xy y x ∧
  (editDist_xy x y = 0 ↔ x = y) ∧
  Z.abs (Z.of_nat (length x) - Z.of_nat (length y)) ≤ editDist_xy x y
  ≤ Z.max (Z.of_nat (length x)) (Z.of_nat (length y)).
Proof.
  rewrite !editDist_xy_table. split; [apply distance_table_sym|]. split.
  - rewrite distance_table_zero by done. rewrite take_ge by done. split.
    + intros [Hlen Heq]. rewrite Heq. apply take_ge. lia.
    + intros <-. split; [done|]. by rewrite take_ge.
  - apply distance_table_bounds.
Qed.

(** ** Edit distance to the best match in a text *)

Lemma last_row_lookup (r c : nat) (D : list (list Z)) (j : nat) :
  dims (r + 1) c D → (j < c)%nat →
  length (last_row D) = c ∧ last_row D !! j = Some (mget D r j).
Proof.
  intros [Hr Hc] Hj. unfold last_row, mget. rewrite (last_lookup D), Hr.
  replace (pred (r + 1)) with r by lia.
  destruct (D !! r) as [row|] eqn:Hrow; [|apply lookup_ge_None in Hrow; lia].
  simpl. eapply Forall_lookup_1 in Hc; [|done]. split; [done|].
  destruct (row !! j) as [v|] eqn:Hv; [done|]. apply lookup_ge_None in Hv. lia.
Qed.

Lemma list_min_elem_of (l : list Z) : l ≠ [] → list_min l ∈ l.
Proof.
  destruct l as [|v l]; [done|]. intros _. simpl.
  revert v. induction l as [|u l IH]; intros v; simpl; [left|].
  destruct (Z.min_spec v u) as [[_ ->]|[_ ->]].
  - specialize (IH v). apply elem_of_cons in IH as [->|IH]; [left | right; by right].
  - right. apply IH.
Qed.

Lemma best_table_bounds (p t : str) (i j : nat) :
  0 ≤ distance_table (fun _ => 0) p t i j ≤ Z.of_nat i.
Proof.
  revert j. induction i as [|i IHi]; intros j; [simpl; lia|].
  induction j as [|j IHj]; [rewrite distance_table_0; lia|].
  rewrite distance_table_S.
  pose proof (IHi j). pose proof (IHi (S j)).
  case_bool_decide; lia.
Qed.

(** A cell of the matrix of [editDist_min] is 0 exactly when the prefix of
    the pattern ends in the text at the cell's column. *)
Lemma best_table_zero (p t : str) (i j : nat) :
  distance_table (fun _ => 0) p t i j = 0 ↔
  (i ≤ j)%nat ∧ ∀ m, (m < i)%nat → p !! m = t !! (j - i + m)%nat.
Proof.
  revert j. induction i as [|i IHi]; intros j.
  - simpl. split; [intros _; split; [lia | intros m Hm; lia] | done].
  - destruct j as [|j]; [rewrite distance_table_0; split; [lia | intros [? _]; lia]|].
    rewrite distance_table_S.
    pose proof (best_table_bounds p t (S i) j).
    pose proof (best_table_bounds p t i (S j)).
    pose proof (best_table_bounds p t i j).
    specialize (IHi j). split.
    + intros Hzero. case_bool_decide as Hc; [|lia].
      destruct (proj1 IHi ltac:(lia)) as [Hij Hag]. split; [lia|].
      intros m Hm. replace (S j - S i + m)%nat with (j - i + m)%nat by lia.
      destruct (decide (m = i)) as [->|Hne].
      * rewrite Hc. f_equal. lia.
      * apply Hag. lia.
    + intros [Hij Hag].
      assert (Hc : p !! i = t !! j).
      { rewrite (Hag i) by lia. f_equal. lia. }
      rewrite bool_decide_eq_true_2 by done.
      rewrite (proj2 IHi); [lia|]. split; [lia|].
      intros m Hm. rewrite (Hag m) by lia. f_equal; lia.
Qed.

(** X30: [editDist_min] and exact matching. For every pattern [p] and text
    [t], [editDist_min(p, t)] lies between 0 and [len(p)], and it is 0
    exactly when the pattern occurs in the text, that is when
    [naive_exact(p, t)] reports an offset. *)
Theorem editDist_min_exact_match (p t : str) :
  0 ≤ editDist_min p t ≤ Z.of_nat (length p) ∧
  (editDist_min p t = 0 ↔ ∃ o, o ∈ naive_exact p t).
Proof.
  unfold editDist_min.
  destruct (filled_matrix p t (fun _ => 0) eq_refl) as [Hd Hc].
  set (D := fill_matrix p t _) in *.
  assert (Hrow : ∀ j, (j ≤ length t)%nat →
            last_row D !! j = Some (distance_table (fun _ => 0) p t (length p) j)).
  { intros j Hj. destruct (last_row_lookup _ _ D j Hd) as [_ ->]; [lia|].
    f_equal. apply Hc; lia. }
  assert (Hlen : length (last_row D) = (length t + 1)%nat).
  { destruct (last_row_lookup _ _ D 0 Hd) as [-> _]; [lia | done]. }
  assert (Hmin : ∃ j, (j ≤ length t)%nat ∧
                      list_min (last_row D) = distance_table (fun _ => 0) p t (length p) j).
  { destruct (list_elem_of_lookup_1 _ _ (list_min_elem_of (last_row D)
                ltac:(intros Hnil; rewrite Hnil in Hlen; simpl in Hlen; lia))) as [j Hj].
    assert (j ≤ length t)%nat by (apply lookup_lt_Some in Hj; lia).
    exists j. split; [done|]. rewrite Hrow in Hj by done. by injection Hj. }
  destruct Hmin as (j0 & Hj0 & Heq). split.
  - rewrite Heq. apply best_table_bounds.
  - split.
    + intros Hzero. rewrite Heq in Hzero.
      apply best_table_zero in Hzero as [Hle Hag].
      exists (j0 - length p)%nat. apply elem_of_naive_exact. split; [lia|].
      apply occurs_at_agree; [lia|]. intros m Hm. by apply Hag.
    + intros (o & [Hfit Hocc]%elem_of_naive_exact).
      rewrite occurs_at_agree in Hocc by done.
      assert (Hcell : distance_table (fun _ => 0) p t (length p) (o + length p) = 0).
      { apply best_table_zero. split; [lia|]. intros m Hm.
        replace (o + length p - length p + m)%nat with (o + m)%nat by lia.
        by apply Hocc. }
      pose proof (list_min_le (last_row D) 0) as Hle.
      rewrite Heq in *. pose proof (best_table_bounds p t (length p) j0).
      assert (0 ∈ last_row D).
      { rewrite <- Hcell. eapply list_elem_of_lookup_2. apply Hrow. lia. }
      specialize (Hle ltac:(done)). lia.
Qed.
